(** * Luthor: the regular-expression tokenizer of [Lex.h]

    A shallow embedding of [Lex::Lexer] and the properties of its scanning
    loop.  The lexer is a template over a token identifier, a string class
    and a regex class; the regex class ([std::regex]) is not part of the
    library, so it enters as an interface ([Engine]) whose laws are the
    documented meaning of the match flags that [MatchRegex] passes.  A small
    backtracking engine for a fragment of the ECMAScript grammar instantiates
    the interface and runs the examples.

    Iterators are offsets: a [_String::const_iterator] is an offset into the
    script ([std::begin(script)] is [0], [std::end(script)] is its length),
    a [std::vector<TokenDef>::const_iterator] is an index into
    [m_expressions] ([std::end(m_expressions)] is its length).  The values of
    type [size_t] are natural numbers; they never exceed the length of the
    script plus one (see the bound on the locations sent). *)

From Stdlib Require Import String Ascii List Arith Bool Lia.
From Stdlib Require DecimalString.
Import ListNotations.

Set Implicit Arguments.

(** ** Characters and ranges of the script *)

Definition newline : ascii := "010"%char.
Definition carriage_return : ascii := "013"%char.

(** The half-open range [[first, last)] of a character sequence. *)
Definition range (script : list ascii) (first last : nat) : list ascii :=
  firstn (last - first) (skipn first script).

(** ** The matching engine ([std::regex], [std::regex_search]) *)

(** [std::regex_constants::match_flag_type], a bit mask; only the four bits
    the lexer sets are kept, one boolean per bit. *)
Record match_flag_type : Type := mkFlags {
  match_continuous : bool;
  match_not_null : bool;
  format_no_copy : bool;
  format_first_only : bool
}.

Definition match_default : match_flag_type := mkFlags false false false false.
Definition flag_continuous : match_flag_type := mkFlags true false false false.
Definition flag_not_null : match_flag_type := mkFlags false true false false.
Definition flag_no_copy : match_flag_type := mkFlags false false true false.
Definition flag_first_only : match_flag_type := mkFlags false false false true.

(** The operator [|] on flags. *)
Definition flag_or (a b : match_flag_type) : match_flag_type :=
  mkFlags (match_continuous a || match_continuous b)
          (match_not_null a || match_not_null b)
          (format_no_copy a || format_no_copy b)
          (format_first_only a || format_first_only b).

(** [std::match_results] after a successful search over a range: the text
    before the match, the match itself ([results.str()]) and the text after
    it. *)
Record match_results : Type := mkResults {
  prefix : list ascii;
  str : list ascii;
  suffix : list ascii
}.

(** What the lexer needs of its [_Regex] parameter.  [compile] is the
    constructor of the regex from a pattern text ([None]: it throws
    [std::regex_error]); [regex_search r s flags] is [std::regex_search]
    over the range [s] ([None]: it returns false).  The lexer sets neither
    [match_prev_avail] nor the other flags that tell the engine what
    surrounds the range, so a search is a function of the regex, the range
    and the flags.  The three laws are the standard's description of the
    results and of the two matching flags.  A search that runs out of
    resources and throws is not modelled. *)
Class Engine : Type := {
  Regex : Type;
  compile : list ascii -> option Regex;
  regex_search : Regex -> list ascii -> match_flag_type -> option match_results;
  search_results : forall r s fl m,
    regex_search r s fl = Some m -> prefix m ++ str m ++ suffix m = s;
  search_continuous : forall r s fl m,
    match_continuous fl = true -> regex_search r s fl = Some m -> prefix m = [];
  search_not_null : forall r s fl m,
    match_not_null fl = true -> regex_search r s fl = Some m -> str m <> []
}.

Arguments search_results {Engine} r s fl m _.
Arguments search_continuous {Engine} r s fl m _ _.
Arguments search_not_null {Engine} r s fl m _ _.

(** The exception of the regex constructor. *)
Inductive regex_error : Type := RegexError.

(** How a call that may throw ends: it returns, leaving a state behind, or
    it throws, and the state it left behind is still observable. *)
Inductive outcome (A X : Type) : Type :=
| Return (a : A)
| Raise (x : X) (a : A).

Arguments Return {A X} a.
Arguments Raise {A X} x a.

(** ** Locations *)

Record Location : Type := mkLocation {
  line_number : nat;
  within_line : nat;
  global : nat
}.

(** ** The lexer *)

Section Lexer.

Context {E : Engine}.
Variable TokenID : Type.

Record TokenDef : Type := mkTokenDef {
  Expr : Regex;
  ID : TokenID
}.

(** The object: its only member is [m_expressions]. *)
Record Lexer : Type := mkLexer {
  m_expressions : list TokenDef
}.

Record TokenMatch : Type := mkTokenMatch {
  Token : nat;
  LexemeStart : nat;
  LexemeEnd : nat
}.

(** [define]: the [TokenDef] is constructed first (its regex member is
    compiled there) and pushed back after; when the constructor throws,
    [push_back] is not reached. *)
Definition define (id : TokenID) (definitionRegex : list ascii) (lx : Lexer)
  : outcome Lexer regex_error :=
  match compile definitionRegex with
  | Some e => Return (mkLexer (m_expressions lx ++ [mkTokenDef e id]))
  | None => Raise RegexError lx
  end.

(** A call of [std::regex_search] made by the lexer: the rule tried and the
    range searched. *)
Record Probe : Type := mkProbe {
  probe_rule : nat;
  probe_first : nat;
  probe_last : nat
}.

(** The flags of the call in [MatchRegex]. *)
Definition MatchRegex_flags : match_flag_type :=
  flag_or (flag_or (flag_or flag_continuous flag_not_null) flag_no_copy)
          flag_first_only.

(** The loop of [MatchRegex] from the iterator [expr] on; [exprs] is the part
    of [m_expressions] from [expr] to its end.  The result is the iterator
    returned, the value left in the reference parameter [end], and the
    searches made. *)
Fixpoint MatchRegex_from (exprs : list TokenDef) (expr : nat)
    (script : list ascii) (start end_ : nat) : nat * nat * list Probe :=
  match exprs with
  | [] => (expr, end_, [])
  | d :: exprs' =>
      match regex_search (Expr d) (range script start end_) MatchRegex_flags with
      | Some results =>
          (expr, start + length (str results), [mkProbe expr start end_])
      | None =>
          let '(it, e, probes) :=
            MatchRegex_from exprs' (S expr) script start end_ in
          (it, e, mkProbe expr start end_ :: probes)
      end
  end.

Definition MatchRegex (lx : Lexer) (script : list ascii) (start end_ : nat)
  : nat * nat * list Probe :=
  MatchRegex_from (m_expressions lx) 0 script start end_.

Definition SearchRegex (lx : Lexer) (script : list ascii) (start end_ : nat)
  : TokenMatch * list Probe :=
  let m := mkTokenMatch (length (m_expressions lx)) start end_ in
  if end_ <=? start then (m, [])
  else
    let '(tok, e, probes) := MatchRegex lx script start (LexemeEnd m) in
    let m := mkTokenMatch tok (LexemeStart m) e in
    if Token m =? length (m_expressions lx)
    then (mkTokenMatch (Token m) (LexemeStart m) (LexemeStart m), probes)
    else (m, probes).

(** The loop of [CountLineNums], [n] iterations from [a]; the result is the
    count and the value left in the reference parameter. *)
Fixpoint CountLineNums_loop (n : nat) (script : list ascii) (a : nat)
    (lineLineBegin lineCount : nat) : nat * nat :=
  match n with
  | 0 => (lineCount, lineLineBegin)
  | S n' =>
      match nth_error script a with
      | Some c =>
          if Ascii.eqb c newline
          then CountLineNums_loop n' script (a + 1) (a + 1) (lineCount + 1)
          else CountLineNums_loop n' script (a + 1) lineLineBegin lineCount
      | None => CountLineNums_loop n' script (a + 1) lineLineBegin lineCount
      end
  end.

Definition CountLineNums (script : list ascii) (a b lineLineBegin : nat)
  : nat * nat :=
  CountLineNums_loop (b - a) script a lineLineBegin 0.

(** *** The sinks and what they are sent *)

(** A call of one of the two functors: [onMatch(location, id, start, end)]
    or [onError(location)]. *)
Inductive Event : Type :=
| MatchEvent (location : Location) (id : TokenID) (LexemeStart LexemeEnd : nat)
| NoMatchEvent (location : Location).

(** The functors are the caller's: they have a state of their own ([H]) and
    may throw ([X]).  They are handed locations, identifiers and iterators
    into the script, not the lexer: a functor that calls [define] on the
    lexer that is scanning is not modelled. *)
Record Sinks (H X : Type) : Type := mkSinks {
  onMatch : Location -> TokenID -> nat -> nat -> H -> outcome H X;
  onError : Location -> H -> outcome H X
}.

Definition deliver {H X : Type} (sk : Sinks H X) (ev : Event) (h : H)
  : outcome H X :=
  match ev with
  | MatchEvent loc id s e => onMatch sk loc id s e h
  | NoMatchEvent loc => onError sk loc h
  end.

(** The local variables of [analyze] that live across iterations. *)
Record ScanState : Type := mkScanState {
  location : Location;
  cursor : nat;
  lastLineBegin : nat
}.

Definition initial : ScanState := mkScanState (mkLocation 1 1 0) 0 0.

(** One iteration of the loop of [analyze], from the search to the update of
    the cursor: the searches made, the call of a sink it makes, and the
    locals after it.  [match.Token->ID] reads the rule the iterator points
    at; an iterator that is not the end one points at a rule of the table
    (see [SearchRegex_token]), so the last case of [ev] does not arise. *)
Definition iteration (lx : Lexer) (script : list ascii) (st : ScanState)
  : list Probe * Event * ScanState :=
  let '(m, probes) := SearchRegex lx script (cursor st) (length script) in
  let loc := mkLocation (line_number (location st))
                        (1 + cursor st - lastLineBegin st)
                        (cursor st - 0) in
  let ev :=
    if Token m =? length (m_expressions lx) then NoMatchEvent loc
    else
      match nth_error (m_expressions lx) (Token m) with
      | Some d => MatchEvent loc (ID d) (LexemeStart m) (LexemeEnd m)
      | None => NoMatchEvent loc
      end in
  let '(n, llb) :=
    CountLineNums script (cursor st) (LexemeEnd m) (lastLineBegin st) in
  (probes, ev,
   mkScanState (mkLocation (line_number loc + n) (within_line loc) (global loc))
               (LexemeEnd m) llb).

(** How a call of [analyze] ends. [Running]: the loop has not ended within
    the iterations allotted. *)
Inductive Completion (X : Type) : Type :=
| Returns
| Throws (x : X)
| Running.

Arguments Returns {X}.
Arguments Throws {X} x.
Arguments Running {X}.

(** What a call of [analyze] does: the calls of the sinks, in order, the
    state of the sinks and of the lexer after, and how it ended. *)
Record Run (H X : Type) : Type := mkRun {
  events : list Event;
  sink : H;
  lexer : Lexer;
  completion : Completion X
}.

Definition emit {H X : Type} (ev : Event) (r : Run H X) : Run H X :=
  mkRun (ev :: events r) (sink r) (lexer r) (completion r).

(** The loop [while (cursor < end)], at most [fuel] iterations of it. *)
Fixpoint analyze_loop {H X : Type} (fuel : nat) (lx : Lexer)
    (script : list ascii) (sk : Sinks H X) (st : ScanState) (h : H)
  : Run H X :=
  if cursor st <? length script then
    match fuel with
    | 0 => mkRun [] h lx Running
    | S fuel' =>
        let '(_, ev, st') := iteration lx script st in
        match deliver sk ev h with
        | Raise x h' => mkRun [ev] h' lx (Throws x)
        | Return h' => emit ev (analyze_loop fuel' lx script sk st' h')
        end
    end
  else mkRun [] h lx Returns.

Definition analyze {H X : Type} (fuel : nat) (lx : Lexer)
    (script : list ascii) (sk : Sinks H X) (h : H) : Run H X :=
  analyze_loop fuel lx script sk initial h.

End Lexer.

Arguments MatchEvent {TokenID} location id LexemeStart LexemeEnd.
Arguments NoMatchEvent {TokenID} location.

(** ** A reference engine

    A backtracking matcher in the manner of the ECMAScript grammar that
    [std::regex] defaults to, for the fragment made of literal characters,
    [.], escapes, bracket classes, groups, alternation and the greedy
    quantifiers [*], [+] and [?].  Anchors, bounded repetition, lazy
    quantifiers, back-references and look-ahead are outside the fragment:
    [parse] rejects them. *)

Module Reference.

Inductive pattern : Type :=
| Empty
| Char (c : ascii)
| AnyChar
| Class (negated : bool) (ranges : list (ascii * ascii))
| Seq (p q : pattern)
| Alt (p q : pattern)
| Star (p : pattern)
| Plus (p : pattern)
| Opt (p : pattern).

Definition in_range (c : ascii) (r : ascii * ascii) : bool :=
  (nat_of_ascii (fst r) <=? nat_of_ascii c) &&
  (nat_of_ascii c <=? nat_of_ascii (snd r)).

Definition class_matches (negated : bool) (ranges : list (ascii * ascii))
    (c : ascii) : bool :=
  xorb negated (existsb (in_range c) ranges).

Definition line_terminator (c : ascii) : bool :=
  Ascii.eqb c newline || Ascii.eqb c carriage_return.

(** A matcher consumes a prefix of [s] and hands the rest to its
    continuation; the first answer of the continuation, in priority order, is
    the answer. *)
Definition matcher : Type :=
  list ascii -> (list ascii -> option (list ascii)) -> option (list ascii).

Definition one (accepts : ascii -> bool) : matcher :=
  fun s k =>
    match s with
    | c :: s' => if accepts c then k s' else None
    | [] => None
    end.

Definition orelse (a b : option (list ascii)) : option (list ascii) :=
  match a with
  | Some r => Some r
  | None => b
  end.

(** Greedy repetition; an iteration that consumes nothing is rejected, so [n]
    iterations at most are possible when [n] bounds the length of [s]. *)
Fixpoint iterate (body : matcher) (n : nat) : matcher :=
  fun s k =>
    match n with
    | 0 => k s
    | S n' =>
        orelse
          (body s (fun s' =>
             if length s' <? length s then iterate body n' s' k else None))
          (k s)
    end.

Fixpoint run (p : pattern) : matcher :=
  fun s k =>
    match p with
    | Empty => k s
    | Char c => one (Ascii.eqb c) s k
    | AnyChar => one (fun c => negb (line_terminator c)) s k
    | Class negated ranges => one (class_matches negated ranges) s k
    | Seq p q => run p s (fun s' => run q s' k)
    | Alt p q => orelse (run p s k) (run q s k)
    | Star p => iterate (run p) (length s) s k
    | Plus p => run p s (fun s' => iterate (run p) (length s') s' k)
    | Opt p => orelse (run p s k) (k s)
    end.

(** The end of a match: under [match_not_null] an empty match is no match,
    and the matcher backtracks. *)
Definition accept (fl : match_flag_type) (s rest : list ascii)
  : option (list ascii) :=
  if match_not_null fl && (length s <=? length rest) then None else Some rest.

Definition match_here (p : pattern) (fl : match_flag_type) (s : list ascii)
  : option (list ascii) :=
  run p s (accept fl s).

(** The search proper: at the first position, and unless [match_continuous]
    is set at the next ones. *)
Fixpoint search_after (p : pattern) (fl : match_flag_type)
    (before s : list ascii) : option match_results :=
  match match_here p fl s with
  | Some rest => Some (mkResults before (firstn (length s - length rest) s) rest)
  | None =>
      if match_continuous fl then None
      else match s with
           | [] => None
           | c :: s' => search_after p fl (before ++ [c]) s'
           end
  end.

Definition search (p : pattern) (s : list ascii) (fl : match_flag_type)
  : option match_results :=
  search_after p fl [] s.


(** *** Pattern texts *)

Definition digit_ranges : list (ascii * ascii) := [("0", "9")]%char.

Definition word_ranges : list (ascii * ascii) :=
  [("a", "z"); ("A", "Z"); ("0", "9"); ("_", "_")]%char.

Definition space_ranges : list (ascii * ascii) :=
  [(" ", " "); ("009", "013")]%char.

Definition is_word (c : ascii) : bool := existsb (in_range c) word_ranges.

(** What follows a backslash: a control escape, a class escape, or the
    character itself when it is not a letter, a digit or an underscore. *)
Definition escape (c : ascii) : option pattern :=
  if is_word c then
    if Ascii.eqb c "n" then Some (Char newline)
    else if Ascii.eqb c "r" then Some (Char carriage_return)
    else if Ascii.eqb c "t" then Some (Char "009")
    else if Ascii.eqb c "v" then Some (Char "011")
    else if Ascii.eqb c "f" then Some (Char "012")
    else if Ascii.eqb c "d" then Some (Class false digit_ranges)
    else if Ascii.eqb c "D" then Some (Class true digit_ranges)
    else if Ascii.eqb c "w" then Some (Class false word_ranges)
    else if Ascii.eqb c "W" then Some (Class true word_ranges)
    else if Ascii.eqb c "s" then Some (Class false space_ranges)
    else if Ascii.eqb c "S" then Some (Class true space_ranges)
    else None
  else Some (Char c).

(** An atom of a bracket class: the ranges it stands for, and the character
    when it is a single one (only such an atom can bound a range). *)
Definition class_atom (s : list ascii)
  : option (list (ascii * ascii) * option ascii * list ascii) :=
  match s with
  | [] => None
  | "\"%char :: c :: s' =>
      match escape c with
      | Some (Char c') => Some ([(c', c')], Some c', s')
      | Some (Class false ranges) => Some (ranges, None, s')
      | _ => None
      end
  | "\"%char :: [] => None
  | c :: s' => Some ([(c, c)], Some c, s')
  end.

(** The inside of a bracket class, after [[] and [^]. *)
Fixpoint parse_class (fuel : nat) (s : list ascii) (acc : list (ascii * ascii))
  : option (list (ascii * ascii) * list ascii) :=
  match fuel with
  | 0 => None
  | S fuel' =>
      match s with
      | "]"%char :: s' => Some (acc, s')
      | _ =>
          match class_atom s with
          | Some (ranges, _, "-"%char :: "]"%char :: s') =>
              Some (acc ++ ranges ++ [("-", "-")]%char, s')
          | Some (ranges, Some lo, "-"%char :: s') =>
              match class_atom s' with
              | Some (_, Some hi, s'') =>
                  if nat_of_ascii lo <=? nat_of_ascii hi
                  then parse_class fuel' s'' (acc ++ [(lo, hi)])
                  else None
              | _ => None
              end
          | Some (_, None, "-"%char :: _) => None
          | Some (ranges, _, s') => parse_class fuel' s' (acc ++ ranges)
          | None => None
          end
      end
  end.

Definition quantified (a : pattern) (s : list ascii) : pattern * list ascii :=
  match s with
  | "*"%char :: s' => (Star a, s')
  | "+"%char :: s' => (Plus a, s')
  | "?"%char :: s' => (Opt a, s')
  | _ => (a, s)
  end.

(** The characters that stand for themselves. *)
Definition literal (c : ascii) : bool :=
  negb (existsb (Ascii.eqb c)
          ["^"; "$"; "\"; "."; "*"; "+"; "?"; "("; ")"; "["; "]"; "{"; "}"; "|"]%char).

Fixpoint parse_disjunction (fuel : nat) (s : list ascii)
  : option (pattern * list ascii) :=
  match fuel with
  | 0 => None
  | S fuel' =>
      match parse_alternative fuel' s with
      | Some (p, "|"%char :: s') =>
          match parse_disjunction fuel' s' with
          | Some (q, s'') => Some (Alt p q, s'')
          | None => None
          end
      | other => other
      end
  end
with parse_alternative (fuel : nat) (s : list ascii)
  : option (pattern * list ascii) :=
  match fuel with
  | 0 => None
  | S fuel' =>
      match s with
      | [] => Some (Empty, s)
      | "|"%char :: _ => Some (Empty, s)
      | ")"%char :: _ => Some (Empty, s)
      | _ =>
          match parse_atom fuel' s with
          | Some (a, s') =>
              let (t, s'') := quantified a s' in
              match parse_alternative fuel' s'' with
              | Some (Empty, s3) => Some (t, s3)
              | Some (q, s3) => Some (Seq t q, s3)
              | None => None
              end
          | None => None
          end
      end
  end
with parse_atom (fuel : nat) (s : list ascii)
  : option (pattern * list ascii) :=
  match fuel with
  | 0 => None
  | S fuel' =>
      match s with
      | "("%char :: "?"%char :: ":"%char :: s'
      | "("%char :: s' =>
          match parse_disjunction fuel' s' with
          | Some (p, ")"%char :: s'') => Some (p, s'')
          | _ => None
          end
      | "["%char :: "^"%char :: s' =>
          match parse_class (S (length s')) s' [] with
          | Some (ranges, s'') => Some (Class true ranges, s'')
          | None => None
          end
      | "["%char :: s' =>
          match parse_class (S (length s')) s' [] with
          | Some (ranges, s'') => Some (Class false ranges, s'')
          | None => None
          end
      | "."%char :: s' => Some (AnyChar, s')
      | "\"%char :: c :: s' =>
          match escape c with
          | Some a => Some (a, s')
          | None => None
          end
      | c :: s' => if literal c then Some (Char c, s') else None
      | [] => None
      end
  end.

(** The constructor of the regex: the whole text must be a disjunction. *)
Definition parse (text : list ascii) : option pattern :=
  match parse_disjunction (3 * length text + 3) text with
  | Some (p, []) => Some p
  | _ => None
  end.

(** A matcher is sound when its answer is an answer of its continuation on
    some suffix of the text it was given. *)
Definition sound (m : matcher) : Prop :=
  forall s k r, m s k = Some r ->
    exists pre s', s = pre ++ s' /\ k s' = Some r.

End Reference.

(** ** The sinks of [Example.cpp] *)

Section ExampleSinks.

Variable TokenID : Type.

Record MatchedToken : Type := mkMatchedToken {
  token_Location : Location;
  token_ID : TokenID;
  Lexeme : list ascii
}.

Record SyntaxErrorException : Type := mkSyntaxError {
  error_Location : Location
}.

(** [MatchedTokenList::operator()]: the lexeme is copied out of the script
    the two iterators point into, and the token is pushed back. *)
Definition MatchedTokenList_call (script : list ascii) (location : Location)
    (id : TokenID) (leximeBegin leximeEnd : nat) (Tokens : list MatchedToken)
  : outcome (list MatchedToken) SyntaxErrorException :=
  Return (Tokens ++ [mkMatchedToken location id (range script leximeBegin leximeEnd)]).

(** [ErrorHandler::operator()]: it throws. *)
Definition ErrorHandler_call (location : Location) (Tokens : list MatchedToken)
  : outcome (list MatchedToken) SyntaxErrorException :=
  Raise (mkSyntaxError location) Tokens.

(** The pair of sinks [main] passes to [analyze]. *)
Definition example_sinks (script : list ascii)
  : Sinks TokenID (list MatchedToken) SyntaxErrorException :=
  mkSinks (MatchedTokenList_call script) ErrorHandler_call.

(** An error sink that returns, with the same match sink. *)
Definition returning_sinks (script : list ascii)
  : Sinks TokenID (list MatchedToken) SyntaxErrorException :=
  mkSinks (MatchedTokenList_call script) (fun _ Tokens => Return Tokens).

End ExampleSinks.

(** The token identifiers of [Example.cpp]. *)
Inductive TOKEN_ID : Type :=
| TOKEN_COMMENT
| TOKEN_FUNCTION
| TOKEN_SCRIPT
| TOKEN_IDENTIFIER
| TOKEN_INTEGER
| TOKEN_FLOAT
| TOKEN_STRING
| TOKEN_COMMA
| TOKEN_LBRACE
| TOKEN_RBRACE
| TOKEN_WHITESPACE
| TOKEN_NEWLINE.

(** ** Building a table *)

Section Tables.

Context {E : Engine}.
Variable TokenID : Type.

Definition empty_lexer : Lexer TokenID := mkLexer [].

(** A sequence of calls of [define] on one lexer, left to right; the first
    that throws ends it. *)
Fixpoint define_all (rules : list (TokenID * string)) (lx : Lexer TokenID)
  : outcome (Lexer TokenID) regex_error :=
  match rules with
  | [] => Return lx
  | (id, text) :: rules' =>
      match define id (list_ascii_of_string text) lx with
      | Return lx' => define_all rules' lx'
      | Raise x lx' => Raise x lx'
      end
  end.

Definition lexer_of (o : outcome (Lexer TokenID) regex_error) : Lexer TokenID :=
  match o with
  | Return lx => lx
  | Raise _ lx => lx
  end.

End Tables.

Arguments example_sinks {TokenID} script.
Arguments returning_sinks {TokenID} script.
Arguments define_all {E TokenID} rules lx.
Arguments lexer_of {E TokenID} o.
Arguments Returns {X}.
Arguments Throws {X} x.
Arguments Running {X}.

(** ** The vocabulary of the properties *)

Section Vocabulary.

Context {E : Engine}.
Variable TokenID : Type.

Definition event_location (ev : Event TokenID) : Location :=
  match ev with
  | MatchEvent loc _ _ _ => loc
  | NoMatchEvent loc => loc
  end.

Definition is_match (ev : Event TokenID) : bool :=
  match ev with
  | MatchEvent _ _ _ _ => true
  | NoMatchEvent _ => false
  end.

(** The lexeme of an event: the text between the two iterators of a match
    event; a no-match event has none. *)
Definition lexeme (script : list ascii) (ev : Event TokenID) : list ascii :=
  match ev with
  | MatchEvent _ _ s e => range script s e
  | NoMatchEvent _ => []
  end.

(** The spans of the events tile the script from [pos] to its end: each is
    a match, starts where the one before ended, and is not empty. *)
Fixpoint covers (script : list ascii) (pos : nat) (evs : list (Event TokenID))
  : Prop :=
  match evs with
  | [] => pos = length script
  | MatchEvent _ _ s e :: evs' => s = pos /\ pos < e /\ covers script e evs'
  | NoMatchEvent _ :: _ => False
  end.

(** Rule [i] of the table matches at [pos], with results [m]: the search
    [MatchRegex] makes for it there succeeds. *)
Definition matches_at (lx : Lexer TokenID) (script : list ascii) (pos i : nat)
    (m : match_results) : Prop :=
  exists d, nth_error (m_expressions lx) i = Some d /\
    regex_search (Expr d) (range script pos (length script)) MatchRegex_flags
    = Some m.

Definition fails_at (lx : Lexer TokenID) (script : list ascii) (pos i : nat)
  : Prop :=
  forall d, nth_error (m_expressions lx) i = Some d ->
    regex_search (Expr d) (range script pos (length script)) MatchRegex_flags
    = None.

(** The search of [MatchRegex] for the rule [d] over a range fails. *)
Definition rejects (script : list ascii) (start end_ : nat)
    (d : TokenDef TokenID) : Prop :=
  regex_search (Expr d) (range script start end_) MatchRegex_flags = None.

(** No rule of the table matches at [pos]. *)
Definition no_rule_matches (lx : Lexer TokenID) (script : list ascii)
    (pos : nat) : Prop :=
  Forall (rejects script pos (length script)) (m_expressions lx).

(** A text that is matched whole by some rule of the table. *)
Definition rule_matches (lx : Lexer TokenID) (piece : list ascii) : Prop :=
  exists d m, In d (m_expressions lx) /\
    regex_search (Expr d) piece MatchRegex_flags = Some m /\ str m = piece.

(** A script that can be written as back-to-back texts each matched by some
    rule. *)
Definition decomposable (lx : Lexer TokenID) (script : list ascii) : Prop :=
  exists pieces, concat pieces = script /\ Forall (rule_matches lx) pieces.

(** The split the scanner itself makes reaches the end of the script from
    [pos]: at each position on the way some rule is selected. *)
Inductive tokenizes (lx : Lexer TokenID) (script : list ascii) : nat -> Prop :=
| tokenizes_end pos :
    length script <= pos -> tokenizes lx script pos
| tokenizes_step pos m probes :
    pos < length script ->
    SearchRegex lx script pos (length script) = (m, probes) ->
    Token m < length (m_expressions lx) ->
    tokenizes lx script (LexemeEnd m) ->
    tokenizes lx script pos.

(** The states of the loop of [analyze] at the test of its condition. *)
Inductive reachable (lx : Lexer TokenID) (script : list ascii)
  : ScanState -> Prop :=
| reachable_initial : reachable lx script initial
| reachable_next st probes ev st' :
    reachable lx script st ->
    cursor st < length script ->
    iteration lx script st = (probes, ev, st') ->
    reachable lx script st'.

(** The searches of one pass over [n] rules in table order from rule
    [first], all over the range from [start] to [end_]. *)
Definition pass_from (first n start end_ : nat) : list Probe :=
  map (fun i => mkProbe i start end_) (seq first n).

(** The state the loop is left in by an iteration that finds no rule, and
    the location it reports. *)
Definition location_at (st : ScanState) : Location :=
  mkLocation (line_number (location st))
             (1 + cursor st - lastLineBegin st)
             (cursor st).

Definition stuck (st : ScanState) : ScanState :=
  mkScanState (location_at st) (cursor st) (lastLineBegin st).

(** What an iteration that reports a match has done: the span reported
    runs from the cursor before it to the cursor after it, which is further
    on, and is the text, not empty, of the match of a rule. *)
Definition advances (lx : Lexer TokenID) (script : list ascii)
    (st : ScanState) (ev : Event TokenID) (st' : ScanState) : Prop :=
  match ev with
  | MatchEvent _ _ s e =>
      s = cursor st /\ e = cursor st' /\ cursor st < cursor st' /\
      cursor st' <= length script /\
      exists d m, In d (m_expressions lx) /\
        regex_search (Expr d) (range script (cursor st) (length script))
                     MatchRegex_flags = Some m /\
        range script s e = str m /\ str m <> []
  | NoMatchEvent _ => True
  end.

(** Sinks that do nothing and return. *)
Definition silent : Sinks TokenID unit Empty_set :=
  mkSinks (fun _ _ _ _ h => Return h) (fun _ h => Return h).

(** A sink returns, whatever it is called with. *)
Definition always_returns {H X : Type} (sk : Sinks TokenID H X) : Prop :=
  forall ev h, exists h', deliver sk ev h = Return h'.

End Vocabulary.

Arguments event_location {TokenID} ev.
Arguments is_match {TokenID} ev.
Arguments lexeme {TokenID} script ev.
Arguments covers {TokenID} script pos evs.
Arguments matches_at {E TokenID} lx script pos i m.
Arguments fails_at {E TokenID} lx script pos i.
Arguments rejects {E TokenID} script start end_ d.
Arguments no_rule_matches {E TokenID} lx script pos.
Arguments rule_matches {E TokenID} lx piece.
Arguments decomposable {E TokenID} lx script.
Arguments tokenizes {E TokenID} lx script _.
Arguments reachable {E TokenID} lx script _.
Arguments silent {TokenID}.
Arguments advances {E TokenID} lx script st ev st'.
Arguments pass_from first n start end_ : assert.
Arguments always_returns {TokenID H X} sk.

(** The number of newline characters of a text. *)
Definition newlines (s : list ascii) : nat := count_occ ascii_dec s newline.

(** A location describes the offset [global] of a script: the text before
    it splits into complete lines and the beginning [line] of the current
    one, [line_number] counts the complete lines from one and [within_line]
    the characters of the current one from one. *)
Definition locates (script : list ascii) (loc : Location) : Prop :=
  exists before line,
    firstn (global loc) script = before ++ line /\
    global loc <= length script /\
    (before = [] \/ exists b, before = b ++ [newline]) /\
    newlines line = 0 /\
    line_number loc = 1 + newlines before /\
    within_line loc = 1 + length line.

(** The locals of [analyze] agree with the text consumed: the line counter
    is one more than its newlines, and the line-start reference is the
    offset after the last of them. *)
Definition tracks (script : list ascii) (st : ScanState) : Prop :=
  exists before line,
    firstn (cursor st) script = before ++ line /\
    cursor st <= length script /\
    (before = [] \/ exists b, before = b ++ [newline]) /\
    newlines line = 0 /\
    line_number (location st) = 1 + newlines before /\
    lastLineBegin st = length before.

(** The event [ev] is the one the iteration at [st] sends, and its location
    is that of the cursor of [st]: every search of the iteration begins
    there, the location describes that offset, and the iteration adds to
    the line counter the newlines it consumes. *)
Definition located_by {E : Engine} {TokenID : Type} (lx : Lexer TokenID)
    (script : list ascii) (st : ScanState) (ev : Event TokenID) : Prop :=
  let '(probes, ev', st') := iteration lx script st in
  ev = ev' /\
  global (event_location ev) = cursor st /\
  Forall (fun p => probe_first p = cursor st) probes /\
  locates script (event_location ev) /\
  line_number (location st') =
    line_number (location st) + newlines (range script (cursor st) (cursor st')) /\
  tracks script st'.

(** The events [evs] are sent, one per iteration and in order, by the
    iterations of the loop from the state [st] on: the first is the event
    the iteration at [st] sends, with the cursor of [st] inside the script,
    and the others are sent in the same way from the state that iteration
    leaves; [P] holds of each state, its event and the state after. *)
Fixpoint sent_from {E : Engine} {TokenID : Type} (lx : Lexer TokenID)
    (script : list ascii)
    (P : ScanState -> Event TokenID -> ScanState -> Prop)
    (st : ScanState) (evs : list (Event TokenID)) : Prop :=
  match evs with
  | [] => True
  | ev :: evs' =>
      cursor st < length script /\
      ev = snd (fst (iteration lx script st)) /\
      P st ev (snd (iteration lx script st)) /\
      sent_from lx script P (snd (iteration lx script st)) evs'
  end.

Arguments sent_from {E TokenID} lx script P st evs.

(** One list begins another. *)
Definition begins {A : Type} (l1 l2 : list A) : Prop :=
  exists rest, l2 = l1 ++ rest.

(** ** The tables of the examples *)

Open Scope string_scope.

Definition location_arithmetic_rules : list (TOKEN_ID * string) :=
  [(TOKEN_INTEGER, "[0-9]+"); (TOKEN_NEWLINE, "\n")].

(** [main] of [Example.cpp]. *)
Definition example_rules : list (TOKEN_ID * string) :=
  [(TOKEN_COMMENT, "//.*\n");
   (TOKEN_FUNCTION, "function");
   (TOKEN_SCRIPT, "script");
   (TOKEN_IDENTIFIER, "[a-zA-Z_][a-zA-Z0-9_]*");
   (TOKEN_INTEGER, "[0-9]+");
   (TOKEN_FLOAT, "[0-9]+\.[0-9]*");
   (TOKEN_STRING, String "034" (".*" ++ String "034" EmptyString));
   (TOKEN_COMMA, ",");
   (TOKEN_LBRACE, "\{");
   (TOKEN_RBRACE, "\}");
   (TOKEN_WHITESPACE, "[ \t]+");
   (TOKEN_NEWLINE, "(\r?\n)+")].

(** Three rules that all match at the start of ["abc"]. *)
Definition nested_rules : list (nat * string) :=
  [(0, "a"); (1, "ab"); (2, "abc")].

(** The precedence example: [A] before [AB]. *)
Definition precedence_rules : list (string * string) :=
  [("A", "a"); ("AB", "ab")].

(** The table of the README (that of [main] without [TOKEN_FLOAT]). *)
Definition readme_rules : list (TOKEN_ID * string) :=
  [(TOKEN_COMMENT, "//.*\n");
   (TOKEN_FUNCTION, "function");
   (TOKEN_SCRIPT, "script");
   (TOKEN_IDENTIFIER, "[a-zA-Z_][a-zA-Z0-9_]*");
   (TOKEN_INTEGER, "[0-9]+");
   (TOKEN_STRING, String "034" (".*" ++ String "034" EmptyString));
   (TOKEN_COMMA, ",");
   (TOKEN_LBRACE, "\{");
   (TOKEN_RBRACE, "\}");
   (TOKEN_WHITESPACE, "[ \t]+");
   (TOKEN_NEWLINE, "(\r?\n)+")].

(** The text of the README, line by line. *)
Definition readme_script : list ascii :=
  concat
    (map (fun line => (list_ascii_of_string line ++ [newline])%list)
         [String.append "script " (String "034" ("TestScript" ++ String "034" EmptyString));
          "function TestFunc";
          "{";
          String "009" "// Hello, World";
          String "009" "Check 1, 2";
          "}"]).

(** The output the README gives for it: line, column, token and lexeme. *)
Definition readme_output : list (nat * nat * TOKEN_ID * list ascii) :=
  let text := list_ascii_of_string in
  [(1, 1, TOKEN_SCRIPT, text "script");
   (1, 7, TOKEN_WHITESPACE, text " ");
   (1, 8, TOKEN_STRING,
    text (String "034" ("TestScript" ++ String "034" EmptyString)));
   (1, 20, TOKEN_NEWLINE, [newline]);
   (2, 1, TOKEN_FUNCTION, text "function");
   (2, 9, TOKEN_WHITESPACE, text " ");
   (2, 10, TOKEN_IDENTIFIER, text "TestFunc");
   (2, 18, TOKEN_NEWLINE, [newline]);
   (3, 1, TOKEN_LBRACE, text "{");
   (3, 2, TOKEN_NEWLINE, [newline]);
   (4, 1, TOKEN_WHITESPACE, ["009"%char]);
   (4, 2, TOKEN_COMMENT, (text "// Hello, World" ++ [newline])%list);
   (5, 1, TOKEN_WHITESPACE, ["009"%char]);
   (5, 2, TOKEN_IDENTIFIER, text "Check");
   (5, 7, TOKEN_WHITESPACE, text " ");
   (5, 8, TOKEN_INTEGER, text "1");
   (5, 9, TOKEN_COMMA, text ",");
   (5, 10, TOKEN_WHITESPACE, text " ");
   (5, 11, TOKEN_INTEGER, text "2");
   (5, 12, TOKEN_NEWLINE, [newline]);
   (6, 1, TOKEN_RBRACE, text "}");
   (6, 2, TOKEN_NEWLINE, [newline])].

(** A rule that can match nothing. *)
Definition starred_rules : list (string * string) :=
  [("AS", "a*")].

Definition dollar : list ascii := list_ascii_of_string "$".
Definition abc : list ascii := list_ascii_of_string "abc".
Definition ab : list ascii := list_ascii_of_string "ab".

Close Scope string_scope.

(** The script of the location example: 1, 2, newline, 3, 4. *)
Definition twelve_thirtyfour : list ascii :=
  ["1"; "2"; newline; "3"; "4"]%char.

Section ExampleTables.

Context {E : Engine}.

Definition location_arithmetic_lexer : Lexer TOKEN_ID :=
  lexer_of (define_all location_arithmetic_rules (empty_lexer TOKEN_ID)).

Definition nested_lexer : Lexer nat :=
  lexer_of (define_all nested_rules (empty_lexer nat)).

Definition precedence_lexer : Lexer string :=
  lexer_of (define_all precedence_rules (empty_lexer string)).

Definition readme_lexer : Lexer TOKEN_ID :=
  lexer_of (define_all readme_rules (empty_lexer TOKEN_ID)).

Definition starred_lexer : Lexer string :=
  lexer_of (define_all starred_rules (empty_lexer string)).

End ExampleTables.

(** ** The claims that do not hold as they are stated *)

Section AsStated.

Context {E : Engine}.
Variable TokenID : Type.

(** C1 as stated: of two rules that match at [pos], the one registered
    first is selected, with its match. *)
Definition selects_first_of_two (lx : Lexer TokenID) (script : list ascii)
    (pos i j : nat) : Prop :=
  forall m1 m2,
    i < j ->
    matches_at lx script pos i m1 ->
    matches_at lx script pos j m2 ->
    fst (SearchRegex lx script pos (length script)) =
    mkTokenMatch i pos (pos + length (str m1)).

(** C2 as stated: the call ends having sent one no-match event, at line 1,
    column 1. *)
Definition ends_after_one_no_match {H X : Type} (lx : Lexer TokenID)
    (script : list ascii) (sk : Sinks TokenID H X) (h : H) : Prop :=
  exists fuel,
    completion (analyze fuel lx script sk h) <> Running /\
    events (analyze fuel lx script sk h) = [NoMatchEvent (mkLocation 1 1 0)].

(** C3 as stated: the call sends match events only, whose lexemes
    concatenated are the script. *)
Definition reconstructs {H X : Type} (lx : Lexer TokenID)
    (script : list ascii) (sk : Sinks TokenID H X) (h : H) : Prop :=
  exists fuel,
    Forall (fun ev => is_match ev = true)
           (events (analyze fuel lx script sk h)) /\
    concat (map (lexeme script) (events (analyze fuel lx script sk h)))
    = script.

End AsStated.

Arguments selects_first_of_two {E TokenID} lx script pos i j.
Arguments ends_after_one_no_match {E TokenID H X} lx script sk h.
Arguments reconstructs {E TokenID H X} lx script sk h.

(** ** More vocabulary, for the properties of the whole of [Lex.h] *)

Section MoreVocabulary.

Variable TokenID : Type.

(** The spans of the events tile the script from [pos] to [p]: each is a
    match, starts where the one before ended, and is not empty. *)
Fixpoint spans (pos : nat) (evs : list (Event TokenID)) (p : nat) : Prop :=
  match evs with
  | [] => pos = p
  | MatchEvent _ _ s e :: evs' => s = pos /\ pos < e /\ spans e evs' p
  | NoMatchEvent _ :: _ => False
  end.

(** The token [MatchedTokenList] stores for a match event. *)
Definition token_of (script : list ascii) (ev : Event TokenID)
  : list (MatchedToken TokenID) :=
  match ev with
  | MatchEvent loc id s e => [mkMatchedToken loc id (range script s e)]
  | NoMatchEvent _ => []
  end.

(** The events of a call from a state of the loop: match events whose spans
    tile the script from the cursor to an offset [p], then, when no rule
    matches at [p], copies of the no-match event there and nothing else. *)
Definition shaped {E : Engine} {H X : Type} (lx : Lexer TokenID)
    (script : list ascii) (st : ScanState) (r : Run TokenID H X) : Prop :=
  exists ms ns p,
    events r = ms ++ ns /\
    spans (cursor st) ms p /\
    p <= length script /\
    concat (map (lexeme script) ms) = range script (cursor st) p /\
    (ns = [] \/
     p < length script /\ no_rule_matches lx script p /\
     exists loc, global loc = p /\ Forall (eq (NoMatchEvent loc)) ns) /\
    (completion r = Returns -> ns = [] /\ p = length script).

End MoreVocabulary.

Arguments spans {TokenID} pos evs p.
Arguments token_of {TokenID} script ev.
Arguments shaped {TokenID E H X} lx script st r.

(** ** [main] of [Example.cpp]

    The body of [main] after the calls of [define], over any table of
    [TOKEN_ID] and any text in the place of [c_script].  What is written to
    [tcout] is a sequence of characters; [endl] is a newline. *)

Unset Implicit Arguments.

Definition NUL : ascii := "000"%char.
Definition tab : ascii := "009"%char.

(** The values of the enumerators of [TOKEN_ID]. *)
Definition TOKEN_ID_value (id : TOKEN_ID) : nat :=
  match id with
  | TOKEN_COMMENT => 0
  | TOKEN_FUNCTION => 1
  | TOKEN_SCRIPT => 2
  | TOKEN_IDENTIFIER => 3
  | TOKEN_INTEGER => 4
  | TOKEN_FLOAT => 5
  | TOKEN_STRING => 6
  | TOKEN_COMMA => 7
  | TOKEN_LBRACE => 8
  | TOKEN_RBRACE => 9
  | TOKEN_WHITESPACE => 10
  | TOKEN_NEWLINE => 11
  end.

(** [TokenIDToString], on the value of its argument; [None]: the default
    case, which throws [exception("Bad token ID.")]. *)
Definition TokenIDToString (id : nat) : option string :=
  match id with
  | 0 => Some "COMMENT"
  | 1 => Some "FUNCTION"
  | 2 => Some "SCRIPT"
  | 3 => Some "IDENTIFIER"
  | 4 => Some "INTEGER"
  | 5 => Some "FLOAT"
  | 6 => Some "STRING"
  | 7 => Some "COMMA"
  | 8 => Some "LBRACE"
  | 9 => Some "RBRACE"
  | 10 => Some "WHITESPACE"
  | 11 => Some "NEWLINE"
  | _ => None
  end%string.

(** [tcout << n] for a [size_t]: its decimal digits. *)
Definition print_size_t (n : nat) : list ascii :=
  list_ascii_of_string (DecimalString.NilEmpty.string_of_uint (Nat.to_uint n)).

(** [tcout << p] for a pointer to characters: the characters before the
    first NUL. *)
Fixpoint c_str (s : list ascii) : list ascii :=
  match s with
  | [] => []
  | c :: s' => if Ascii.eqb c NUL then [] else c :: c_str s'
  end.

(** The loop of [main] over [token.Lexeme.c_str()]: a newline is written as
    backslash, n; a tab as backslash, t; any other character as it is. *)
Fixpoint print_lexeme (s : list ascii) : list ascii :=
  match s with
  | [] => []
  | c :: s' =>
      if Ascii.eqb c NUL then []
      else
        (if Ascii.eqb c newline then ["\"; "n"]%char
         else if Ascii.eqb c tab then ["\"; "t"]%char
         else [c])
        ++ print_lexeme s'
  end.

(** The line [main] writes for a token; [None]: [TokenIDToString] throws. *)
Definition print_token (t : MatchedToken TOKEN_ID) : option (list ascii) :=
  match TokenIDToString (TOKEN_ID_value (token_ID t)) with
  | Some name =>
      Some (list_ascii_of_string "Line "
            ++ print_size_t (line_number (token_Location t))
            ++ list_ascii_of_string ", col "
            ++ print_size_t (within_line (token_Location t))
            ++ list_ascii_of_string ": "
            ++ list_ascii_of_string name
            ++ list_ascii_of_string " '"
            ++ print_lexeme (Lexeme t)
            ++ list_ascii_of_string "'"
            ++ [newline])
  | None => None
  end.

(** The loop of [main] over [matches.Tokens]. *)
Fixpoint print_tokens (Tokens : list (MatchedToken TOKEN_ID))
  : option (list ascii) :=
  match Tokens with
  | [] => Some []
  | t :: Tokens' =>
      match print_token t with
      | Some line =>
          match print_tokens Tokens' with
          | Some rest => Some (line ++ rest)
          | None => None
          end
      | None => None
      end
  end.

(** What [main] has written when it returns.  [Listed]: the try block ran
    to its end; [SyntaxError]: the handler of [SyntaxErrorException] ran;
    [BadTokenID]: the handler of [exception] ran, after a throw of
    [TokenIDToString] (what it writes is not modelled); [Unfinished]: the
    call of [analyze] has not ended within the iterations allotted. *)
Inductive MainOutput : Type :=
| Listed (out : list ascii)
| SyntaxError (out : list ascii)
| BadTokenID
| Unfinished.

(** The try block of [main] and its handlers.  The script [analyze] is
    given is the [std::string] made from [c_script], its characters before
    the first NUL; [syntaxErrorPtr] points into [c_script] itself. *)
Definition main_body {E : Engine} (fuel : nat) (lex : Lexer TOKEN_ID)
    (c_script : list ascii) : MainOutput :=
  let script := c_str c_script in
  let r := analyze fuel lex script (example_sinks script) [] in
  match completion r with
  | Returns =>
      match print_tokens (sink r) with
      | Some out => Listed out
      | None => BadTokenID
      end
  | Throws syntaxError =>
      SyntaxError
        (list_ascii_of_string "SYNTAX ERROR: Line "
         ++ print_size_t (line_number (error_Location syntaxError))
         ++ list_ascii_of_string ", col "
         ++ print_size_t (within_line (error_Location syntaxError))
         ++ list_ascii_of_string ": "
         ++ c_str (skipn (global (error_Location syntaxError)) c_script))
  | Running => Unfinished
  end.

(** The text of [c_script], line by line. *)
Definition c_script : list ascii :=
  concat
    (map (fun line => list_ascii_of_string line ++ [newline])
         [String.append "script " (String "034" (String.append "TestScript" (String "034" EmptyString)));
          ""; "";
          "// This is a comment";
          "function TestFunc";
          "{";
          String "009" (String "009" "TestInstruction 1, 2, 3  // This is also a comment");
          "";
          String.append "    Teapot "
            (String "034" (String.append "A    string"
               (String "034" (String.append "," (String "009" "    jazzy")))));
          "}";
          ""; "";
          "function Ginger";
          "{";
          "    Hello, World    ";
          "    ";
          "}"]%string).

Definition example_lexer {E : Engine} : Lexer TOKEN_ID :=
  lexer_of (define_all example_rules (empty_lexer TOKEN_ID)).

Set Implicit Arguments.

Unset Implicit Arguments.

(** * Properties *)

(** ** The reference engine keeps the laws of the interface *)

Module ReferenceEngine.

Import Reference.

Lemma orelse_some (a b : option (list ascii)) r :
  orelse a b = Some r -> a = Some r \/ b = Some r.
Proof. destruct a; simpl; intros H; [left | right]; assumption. Qed.

Lemma one_sound accepts : sound (one accepts).
Proof.
  intros [|c s] k r; simpl; [discriminate|].
  destruct (accepts c); [|discriminate].
  intros H. exists [c], s. split; [reflexivity | assumption].
Qed.

Lemma iterate_sound body n : sound body -> sound (iterate body n).
Proof.
  intros Hbody. induction n as [|n IH]; intros s k r; simpl.
  - intros H. exists [], s. split; [reflexivity | assumption].
  - intros H. apply orelse_some in H. destruct H as [H|H].
    + apply Hbody in H. destruct H as (pre & s' & -> & H).
      destruct (length s' <? length (pre ++ s')); [|discriminate].
      apply IH in H. destruct H as (pre' & s'' & -> & H).
      exists (pre ++ pre'), s''. rewrite app_assoc. split; [reflexivity | assumption].
    + exists [], s. split; [reflexivity | assumption].
Qed.

Lemma run_sound p : sound (run p).
Proof.
  induction p as [|c| |neg rs|p IHp q IHq|p IHp q IHq|p IHp|p IHp|p IHp];
    intros s k r; simpl.
  - intros H. exists [], s. split; [reflexivity | assumption].
  - apply one_sound.
  - apply one_sound.
  - apply one_sound.
  - intros H. apply IHp in H. destruct H as (pre & s' & -> & H).
    apply IHq in H. destruct H as (pre' & s'' & -> & H).
    exists (pre ++ pre'), s''. rewrite app_assoc. split; [reflexivity | assumption].
  - intros H. apply orelse_some in H. destruct H as [H|H]; [apply IHp | apply IHq]; assumption.
  - apply (iterate_sound _ (length s) IHp).
  - intros H. apply IHp in H. destruct H as (pre & s' & -> & H).
    apply (iterate_sound _ (length s') IHp) in H. destruct H as (pre' & s'' & -> & H).
    exists (pre ++ pre'), s''. rewrite app_assoc. split; [reflexivity | assumption].
  - intros H. apply orelse_some in H. destruct H as [H|H]; [apply IHp; assumption|].
    exists [], s. split; [reflexivity | assumption].
Qed.

Lemma match_here_spec p fl s rest :
  match_here p fl s = Some rest ->
  exists pre, s = pre ++ rest /\
              firstn (length s - length rest) s = pre /\
              (match_not_null fl = true -> pre <> []).
Proof.
  unfold match_here. intros H. apply run_sound in H.
  destruct H as (pre & s' & -> & H). unfold accept in H.
  destruct (match_not_null fl && (length (pre ++ s') <=? length s')) eqn:G;
    [discriminate|].
  injection H as ->. exists pre. split; [reflexivity|]. split.
  - rewrite length_app. replace (length pre + length rest - length rest)
      with (length pre + 0) by lia.
    rewrite firstn_app_2. simpl. apply app_nil_r.
  - intros Hnn. rewrite Hnn in G. simpl in G. apply Nat.leb_gt in G.
    rewrite length_app in G. destruct pre; [simpl in G; lia | discriminate].
Qed.

Lemma search_after_found p fl before s rest :
  match_here p fl s = Some rest ->
  search_after p fl before s =
  Some (mkResults before (firstn (length s - length rest) s) rest).
Proof. intros H. destruct s; simpl; rewrite H; reflexivity. Qed.

Lemma found_spec p fl before s rest :
  match_here p fl s = Some rest ->
  before ++ firstn (length s - length rest) s ++ rest = before ++ s /\
  (match_continuous fl = true -> before = before) /\
  (match_not_null fl = true -> firstn (length s - length rest) s <> []).
Proof.
  intros G. apply match_here_spec in G. destruct G as (pre & G1 & G2 & G3).
  rewrite G2, <- G1. auto.
Qed.

Lemma search_after_spec p fl : forall s before m,
  search_after p fl before s = Some m ->
  prefix m ++ str m ++ suffix m = before ++ s /\
  (match_continuous fl = true -> prefix m = before) /\
  (match_not_null fl = true -> str m <> []).
Proof.
  induction s as [|c s IH]; intros before m;
    [destruct (match_here p fl []) as [rest|] eqn:G
    |destruct (match_here p fl (c :: s)) as [rest|] eqn:G].
  1, 3: rewrite (search_after_found p fl before _ rest G); intros H;
    injection H as <-; apply (found_spec p fl before _ rest G).
  - simpl. rewrite G. destruct (match_continuous fl); discriminate.
  - simpl. rewrite G. destruct (match_continuous fl) eqn:C; [discriminate|].
    intros H. apply IH in H. rewrite <- app_assoc in H. simpl in H.
    destruct H as (H1 & _ & H3). split; [assumption|].
    split; [discriminate | assumption].
Qed.

Lemma search_results_law p s fl m :
  search p s fl = Some m -> prefix m ++ str m ++ suffix m = s.
Proof. intros H. apply search_after_spec in H. apply H. Qed.

Lemma search_continuous_law p s fl m :
  match_continuous fl = true -> search p s fl = Some m -> prefix m = [].
Proof. intros C H. apply search_after_spec in H. apply H, C. Qed.

Lemma search_not_null_law p s fl m :
  match_not_null fl = true -> search p s fl = Some m -> str m <> [].
Proof. intros C H. apply search_after_spec in H. apply H, C. Qed.

#[export] Instance engine : Engine := {|
  Regex := pattern;
  compile := parse;
  regex_search := search;
  search_results := search_results_law;
  search_continuous := search_continuous_law;
  search_not_null := search_not_null_law
|}.


End ReferenceEngine.

Export ReferenceEngine.

(** ** Ranges *)

Lemma firstn_plus {A : Type} (n m : nat) : forall l : list A,
  firstn (n + m) l = firstn n l ++ firstn m (skipn n l).
Proof.
  induction n as [|n IH]; intros l; [reflexivity|].
  destruct l as [|x l]; simpl.
  - now rewrite firstn_nil.
  - now rewrite IH.
Qed.

Lemma range_length script a b :
  b <= length script -> length (range script a b) = b - a.
Proof.
  intros Hb. unfold range. rewrite length_firstn, length_skipn. lia.
Qed.

Lemma range_whole script : range script 0 (length script) = script.
Proof.
  unfold range. simpl. rewrite Nat.sub_0_r. apply firstn_all.
Qed.

Lemma range_empty script a b : b <= a -> range script a b = [].
Proof.
  intros H. unfold range. replace (b - a) with 0 by lia. reflexivity.
Qed.

Lemma range_split script a b c :
  a <= b -> b <= c ->
  range script a c = range script a b ++ range script b c.
Proof.
  intros Hab Hbc. unfold range.
  replace (c - a) with ((b - a) + (c - b)) by lia.
  rewrite firstn_plus, skipn_skipn.
  replace (b - a + a) with b by lia. reflexivity.
Qed.

Lemma range_to_end script a :
  range script a (length script) = skipn a script.
Proof.
  unfold range. rewrite <- (length_skipn a script). apply firstn_all.
Qed.

Lemma range_prefix script a b :
  range script 0 a ++ range script a b = range script 0 b \/ b < a.
Proof.
  destruct (le_lt_dec a b) as [H|H]; [left | right; assumption].
  symmetry. apply range_split; lia.
Qed.

(** The text of a match found in a range is the range up to its length. *)
Lemma range_of_match script start end_ (s t : list ascii) :
  range script start end_ = s ++ t ->
  range script start (start + length s) = s.
Proof.
  unfold range. intros H.
  replace (start + length s - start) with (length s) by lia.
  assert (G : firstn (length s) (firstn (end_ - start) (skipn start script))
              = firstn (length s) (s ++ t)) by (rewrite H; reflexivity).
  rewrite firstn_firstn in G.
  assert (L : length s <= end_ - start).
  { apply (f_equal (@length ascii)) in H.
    rewrite length_firstn, length_app in H. lia. }
  rewrite Nat.min_l in G by exact L.
  rewrite G. rewrite firstn_app, Nat.sub_diag, firstn_all. simpl.
  apply app_nil_r.
Qed.

(** ** The ordered pass of [MatchRegex] *)

Section Scanner.

Context {E : Engine} {TokenID : Type}.

Implicit Types (lx : Lexer TokenID) (script : list ascii) (st : ScanState).
Implicit Types (d : TokenDef TokenID) (exprs : list (TokenDef TokenID)).

Lemma pass_from_cons first n start end_ :
  pass_from first (S n) start end_ =
  mkProbe first start end_ :: pass_from (S first) n start end_.
Proof. reflexivity. Qed.

Lemma MatchRegex_from_none script start end_ : forall exprs expr,
  Forall (rejects script start end_) exprs ->
  MatchRegex_from exprs expr script start end_ =
  (expr + length exprs, end_, pass_from expr (length exprs) start end_).
Proof.
  induction exprs as [|d exprs IH]; intros expr Hall; simpl.
  - now rewrite Nat.add_0_r.
  - inversion Hall as [|? ? Hd Hrest]; subst. unfold rejects in Hd.
    rewrite Hd, (IH (S expr) Hrest). rewrite pass_from_cons.
    f_equal. f_equal. lia.
Qed.

Lemma MatchRegex_from_some script start end_ d m post : forall pre expr,
  Forall (rejects script start end_) pre ->
  regex_search (Expr d) (range script start end_) MatchRegex_flags = Some m ->
  MatchRegex_from (pre ++ d :: post) expr script start end_ =
  (expr + length pre, start + length (str m),
   pass_from expr (S (length pre)) start end_).
Proof.
  induction pre as [|d' pre IH]; intros expr Hall Hm; simpl.
  - rewrite Hm, Nat.add_0_r. reflexivity.
  - inversion Hall as [|? ? Hd Hrest]; subst. unfold rejects in Hd.
    rewrite Hd, (IH (S expr) Hrest Hm). rewrite (pass_from_cons expr).
    f_equal. f_equal. lia.
Qed.

(** Either every rule is rejected, or there is a first one that is not. *)
Lemma first_match_cases script start end_ : forall exprs,
  Forall (rejects script start end_) exprs \/
  exists pre d post m,
    exprs = pre ++ d :: post /\
    Forall (rejects script start end_) pre /\
    regex_search (Expr d) (range script start end_) MatchRegex_flags = Some m.
Proof.
  induction exprs as [|d exprs IH].
  - left. constructor.
  - destruct (regex_search (Expr d) (range script start end_) MatchRegex_flags)
      as [m|] eqn:Hd.
    + right. exists [], d, exprs, m. repeat split; [constructor | exact Hd].
    + destruct IH as [IH | (pre & d' & post & m & -> & Hpre & Hm)].
      * left. constructor; assumption.
      * right. exists (d :: pre), d', post, m.
        repeat split; [constructor; assumption | exact Hm].
Qed.

Lemma SearchRegex_none lx script start end_ :
  start < end_ ->
  Forall (rejects script start end_) (m_expressions lx) ->
  SearchRegex lx script start end_ =
  (mkTokenMatch (length (m_expressions lx)) start start,
   pass_from 0 (length (m_expressions lx)) start end_).
Proof.
  intros Hlt Hall. unfold SearchRegex, MatchRegex.
  destruct (end_ <=? start) eqn:G; [apply Nat.leb_le in G; lia|].
  cbn [LexemeEnd LexemeStart Token].
  rewrite (MatchRegex_from_none _ _ _ _ 0 Hall). cbn [Nat.add Token].
  now rewrite Nat.eqb_refl.
Qed.

Lemma SearchRegex_some lx script start end_ pre d post m :
  start < end_ ->
  m_expressions lx = pre ++ d :: post ->
  Forall (rejects script start end_) pre ->
  regex_search (Expr d) (range script start end_) MatchRegex_flags = Some m ->
  SearchRegex lx script start end_ =
  (mkTokenMatch (length pre) start (start + length (str m)),
   pass_from 0 (S (length pre)) start end_).
Proof.
  intros Hlt Hex Hall Hm. unfold SearchRegex, MatchRegex.
  destruct (end_ <=? start) eqn:G; [apply Nat.leb_le in G; lia|].
  cbn [LexemeEnd LexemeStart Token]. rewrite Hex.
  rewrite (MatchRegex_from_some _ _ _ _ _ post pre 0 Hall Hm).
  cbn [Nat.add Token LexemeStart].
  destruct (length pre =? length (pre ++ d :: post)) eqn:L; [|reflexivity].
  apply Nat.eqb_eq in L. rewrite length_app in L. simpl in L. lia.
Qed.

(** The iterator [SearchRegex] returns is the end one or points at a rule. *)
Lemma SearchRegex_token lx script start end_ :
  Token (fst (SearchRegex lx script start end_)) = length (m_expressions lx) \/
  exists d, nth_error (m_expressions lx)
              (Token (fst (SearchRegex lx script start end_))) = Some d.
Proof.
  destruct (le_lt_dec end_ start) as [Hle|Hlt].
  - left. unfold SearchRegex. apply Nat.leb_le in Hle. now rewrite Hle.
  - destruct (first_match_cases script start end_ (m_expressions lx))
      as [Hnone | (pre & d & post & m & Hex & Hpre & Hm)].
    + left. now rewrite (SearchRegex_none _ _ _ _ Hlt Hnone).
    + right. exists d.
      rewrite (SearchRegex_some _ _ _ _ _ _ _ _ Hlt Hex Hpre Hm). simpl.
      rewrite Hex, nth_error_app2, Nat.sub_diag by lia. reflexivity.
Qed.

(** What the flags of [MatchRegex] give: the match is not empty, it begins
    the range searched, and the range up to its length is its text. *)
Lemma match_in_range script start end_ d m :
  end_ <= length script ->
  regex_search (Expr d) (range script start end_) MatchRegex_flags = Some m ->
  0 < length (str m) /\
  start + length (str m) <= end_ /\
  range script start (start + length (str m)) = str m.
Proof.
  intros Hend Hm.
  pose proof (search_results _ _ _ _ Hm) as Hres.
  pose proof (search_continuous _ _ MatchRegex_flags _ eq_refl Hm) as Hcont.
  pose proof (search_not_null _ _ MatchRegex_flags _ eq_refl Hm) as Hnn.
  rewrite Hcont in Hres. simpl in Hres. symmetry in Hres.
  split; [destruct (str m); [contradiction | simpl; lia]|].
  split.
  - apply (f_equal (@length ascii)) in Hres.
    rewrite range_length, length_app in Hres by exact Hend.
    destruct (str m); [contradiction | simpl in *; lia].
  - apply (range_of_match _ _ _ _ _ Hres).
Qed.

(** ** Counting lines *)

Lemma skipn_nth script : forall a c,
  nth_error script a = Some c -> skipn a script = c :: skipn (S a) script.
Proof.
  induction script as [|x script IH]; intros [|a] c; simpl; try discriminate.
  - now intros [= ->].
  - intros H. apply (IH _ _ H).
Qed.

Lemma firstn_succ script : forall a c,
  nth_error script a = Some c -> firstn (S a) script = firstn a script ++ [c].
Proof.
  induction script as [|x script IH]; intros [|a] c; simpl; try discriminate.
  - now intros [= ->].
  - intros H. f_equal. apply (IH _ _ H).
Qed.

Lemma range_first script a b c :
  nth_error script a = Some c -> a < b ->
  range script a b = c :: range script (S a) b.
Proof.
  intros Hc Hlt. unfold range. rewrite (skipn_nth _ _ _ Hc).
  replace (b - a) with (S (b - S a)) by lia. reflexivity.
Qed.

Lemma newlines_app s t : newlines (s ++ t) = newlines s + newlines t.
Proof. apply count_occ_app. Qed.

Lemma newlines_cons c s :
  newlines (c :: s) = (if Ascii.eqb c newline then 1 else 0) + newlines s.
Proof.
  unfold newlines. simpl. destruct (ascii_dec c newline) as [->|Hne].
  - reflexivity.
  - apply Ascii.eqb_neq in Hne. now rewrite Hne.
Qed.

(** The loop of [CountLineNums] keeps the split of the consumed text into
    complete lines and the current one. *)
Lemma CountLineNums_loop_spec script : forall n a llb cnt before line,
  a + n <= length script ->
  firstn a script = before ++ line ->
  llb = length before ->
  newlines line = 0 ->
  (before = [] \/ exists b, before = b ++ [newline]) ->
  exists before' line',
    CountLineNums_loop n script a llb cnt =
      (cnt + newlines (range script a (a + n)), length before') /\
    firstn (a + n) script = before' ++ line' /\
    newlines line' = 0 /\
    (before' = [] \/ exists b, before' = b ++ [newline]) /\
    newlines before' = newlines before + newlines (range script a (a + n)).
Proof.
  induction n as [|n IH]; intros a llb cnt before line Hlen Hsplit Hllb Hline Hbefore.
  - exists before, line. rewrite Nat.add_0_r, range_empty by lia.
    simpl. rewrite !Nat.add_0_r. subst llb. auto.
  - destruct (nth_error script a) as [c|] eqn:Hc;
      [|apply nth_error_None in Hc; lia].
    assert (Ha : length before + length line = a).
    { rewrite <- length_app, <- Hsplit, length_firstn. lia. }
    rewrite (range_first _ _ _ _ Hc) by lia.
    rewrite newlines_cons. simpl. rewrite Hc.
    replace (a + S n) with (a + 1 + n) by lia.
    replace (S a) with (a + 1) by lia.
    destruct (Ascii.eqb c newline) eqn:Hnl.
    + apply Ascii.eqb_eq in Hnl. subst c.
      destruct (IH (a + 1) (a + 1) (cnt + 1) (before ++ line ++ [newline]) [])
        as (before' & line' & H1 & H2 & H3 & H4 & H5).
      * lia.
      * rewrite Nat.add_1_r, (firstn_succ _ _ _ Hc), Hsplit, app_nil_r.
        now rewrite <- app_assoc.
      * rewrite !length_app. simpl. lia.
      * reflexivity.
      * right. exists (before ++ line). now rewrite <- app_assoc.
      * exists before', line'. rewrite H1, H5, !newlines_app, Hline.
        repeat split; try assumption.
        -- f_equal. lia.
        -- rewrite newlines_cons, Ascii.eqb_refl. unfold newlines. simpl. lia.
    + destruct (IH (a + 1) llb cnt before (line ++ [c]))
        as (before' & line' & H1 & H2 & H3 & H4 & H5).
      * lia.
      * rewrite Nat.add_1_r, (firstn_succ _ _ _ Hc), Hsplit.
        now rewrite <- app_assoc.
      * assumption.
      * rewrite newlines_app, Hline, newlines_cons, Hnl. reflexivity.
      * assumption.
      * exists before', line'. rewrite H1, H5.
        repeat split; try assumption.
Qed.

Lemma CountLineNums_same script a llb : CountLineNums script a a llb = (0, llb).
Proof. unfold CountLineNums. now rewrite Nat.sub_diag. Qed.

(** ** One iteration of the loop *)

Lemma iteration_none lx script st :
  cursor st < length script ->
  no_rule_matches lx script (cursor st) ->
  iteration lx script st =
  (pass_from 0 (length (m_expressions lx)) (cursor st) (length script),
   NoMatchEvent (location_at st), stuck st).
Proof.
  intros Hlt Hnone. unfold iteration.
  rewrite (SearchRegex_none _ _ _ _ Hlt Hnone).
  cbn [Token LexemeStart LexemeEnd]. rewrite Nat.eqb_refl.
  rewrite CountLineNums_same. unfold stuck, location_at.
  cbn [line_number within_line global]. now rewrite Nat.sub_0_r, Nat.add_0_r.
Qed.

Lemma iteration_some lx script st pre d post m :
  cursor st < length script ->
  m_expressions lx = pre ++ d :: post ->
  Forall (rejects script (cursor st) (length script)) pre ->
  regex_search (Expr d) (range script (cursor st) (length script))
               MatchRegex_flags = Some m ->
  iteration lx script st =
  (pass_from 0 (S (length pre)) (cursor st) (length script),
   MatchEvent (location_at st) (ID d) (cursor st) (cursor st + length (str m)),
   let cl := CountLineNums script (cursor st) (cursor st + length (str m))
                           (lastLineBegin st) in
   mkScanState
     (mkLocation (line_number (location st) + fst cl)
                 (1 + cursor st - lastLineBegin st) (cursor st))
     (cursor st + length (str m)) (snd cl)).
Proof.
  intros Hlt Hex Hpre Hm. unfold iteration.
  rewrite (SearchRegex_some _ _ _ _ _ _ _ _ Hlt Hex Hpre Hm).
  cbn [Token LexemeStart LexemeEnd].
  replace (length pre =? length (m_expressions lx)) with false
    by (symmetry; apply Nat.eqb_neq; rewrite Hex, length_app; simpl; lia).
  rewrite Hex, nth_error_app2, Nat.sub_diag by lia. cbn [nth_error].
  destruct (CountLineNums script (cursor st) (cursor st + length (str m))
              (lastLineBegin st)) as [n llb].
  unfold location_at. cbn [line_number within_line global fst snd].
  now rewrite Nat.sub_0_r.
Qed.

(** ** The locals track the text consumed *)

Lemma tracks_initial script : tracks script initial.
Proof.
  exists [], []. simpl. repeat split; auto. lia.
Qed.

Lemma tracks_locates script st :
  tracks script st -> locates script (location_at st).
Proof.
  intros (before & line & Hsplit & Hle & Hbefore & Hline & Hln & Hllb).
  exists before, line. unfold location_at. cbn [global line_number within_line].
  repeat split; try assumption.
  assert (Ha : length before + length line = cursor st).
  { rewrite <- length_app, <- Hsplit, length_firstn. lia. }
  lia.
Qed.

Lemma tracks_stuck script st : tracks script st -> tracks script (stuck st).
Proof.
  intros (before & line & H). exists before, line. exact H.
Qed.

Lemma tracks_advance script st e w g :
  tracks script st -> cursor st <= e -> e <= length script ->
  let cl := CountLineNums script (cursor st) e (lastLineBegin st) in
  fst cl = newlines (range script (cursor st) e) /\
  tracks script
    (mkScanState (mkLocation (line_number (location st) + fst cl) w g)
                 e (snd cl)).
Proof.
  intros (before & line & Hsplit & Hle & Hbefore & Hline & Hln & Hllb) Hce He.
  unfold CountLineNums.
  destruct (CountLineNums_loop_spec script (e - cursor st) (cursor st)
              (lastLineBegin st) 0 before line)
    as (before' & line' & H1 & H2 & H3 & H4 & H5); try assumption; try lia.
  replace (cursor st + (e - cursor st)) with e in * by lia.
  cbv zeta. rewrite H1. cbn [fst snd]. split; [reflexivity|].
  exists before', line'. cbn [cursor location line_number lastLineBegin].
  repeat split; try assumption. lia.
Qed.

(** What an iteration does to the locals, whatever it finds. *)
Lemma iteration_tracks lx script st probes ev st' :
  cursor st < length script ->
  tracks script st ->
  iteration lx script st = (probes, ev, st') ->
  tracks script st' /\
  event_location ev = location_at st /\
  cursor st <= cursor st' /\
  line_number (location st') =
    line_number (location st) + newlines (range script (cursor st) (cursor st')).
Proof.
  intros Hlt Htr Hit.
  destruct (first_match_cases script (cursor st) (length script)
              (m_expressions lx))
    as [Hnone | (pre & d & post & m & Hex & Hpre & Hm)].
  - rewrite (iteration_none _ _ _ Hlt Hnone) in Hit.
    injection Hit as <- <- <-. cbn [event_location stuck cursor location].
    rewrite range_empty by lia.
    repeat split; [apply tracks_stuck; assumption | lia |].
    unfold location_at, newlines. simpl. lia.
  - rewrite (iteration_some _ _ _ _ _ _ _ Hlt Hex Hpre Hm) in Hit.
    destruct (match_in_range _ _ _ _ _ (Nat.le_refl _) Hm) as (Hpos & Hend & _).
    destruct (tracks_advance script st (cursor st + length (str m))
                (1 + cursor st - lastLineBegin st) (cursor st) Htr)
      as (Hcount & Htr'); try lia.
    cbv zeta in *. injection Hit as <- <- <-.
    cbn [event_location cursor location line_number].
    repeat split; [assumption | lia | now rewrite Hcount].
Qed.

Lemma reachable_tracks lx script st :
  reachable lx script st -> tracks script st.
Proof.
  induction 1 as [|st probes ev st' _ IH Hlt Hit].
  - apply tracks_initial.
  - apply (iteration_tracks _ _ _ _ _ _ Hlt IH Hit).
Qed.

(** ** The loop *)

Section Loop.

Context {H X : Type}.
Variable lx : Lexer TokenID.
Variable script : list ascii.
Variable sk : Sinks TokenID H X.

Lemma analyze_loop_done fuel st h :
  length script <= cursor st ->
  analyze_loop fuel lx script sk st h = mkRun [] h lx Returns.
Proof.
  intros Hle. destruct fuel; simpl;
    (destruct (cursor st <? length script) eqn:G;
     [apply Nat.ltb_lt in G; lia | reflexivity]).
Qed.

Lemma analyze_loop_step fuel st h :
  cursor st < length script ->
  analyze_loop (S fuel) lx script sk st h =
  let '(_, ev, st') := iteration lx script st in
  match deliver sk ev h with
  | Raise x h' => mkRun [ev] h' lx (Throws x)
  | Return h' => emit ev (analyze_loop fuel lx script sk st' h')
  end.
Proof.
  intros Hlt. simpl. apply Nat.ltb_lt in Hlt. now rewrite Hlt.
Qed.

Lemma analyze_loop_out_of_fuel st h :
  cursor st < length script ->
  analyze_loop 0 lx script sk st h = mkRun [] h lx Running.
Proof.
  intros Hlt. simpl. apply Nat.ltb_lt in Hlt. now rewrite Hlt.
Qed.

(** The cases of a call at a state of the loop: the cursor is at the end;
    no iteration is left; the sink of the iteration throws; it returns, and
    the call goes on. *)
Lemma analyze_loop_cases
    (P : nat -> ScanState -> H -> Run TokenID H X -> Prop) :
  (forall fuel st h,
     length script <= cursor st -> P fuel st h (mkRun [] h lx Returns)) ->
  (forall st h,
     cursor st < length script -> P 0 st h (mkRun [] h lx Running)) ->
  (forall fuel st h probes ev st' x h',
     cursor st < length script ->
     iteration lx script st = (probes, ev, st') ->
     deliver sk ev h = Raise x h' ->
     P (S fuel) st h (mkRun [ev] h' lx (Throws x))) ->
  (forall fuel st h probes ev st' h',
     cursor st < length script ->
     iteration lx script st = (probes, ev, st') ->
     deliver sk ev h = Return h' ->
     P fuel st' h' (analyze_loop fuel lx script sk st' h') ->
     P (S fuel) st h (emit ev (analyze_loop fuel lx script sk st' h'))) ->
  forall fuel st h, P fuel st h (analyze_loop fuel lx script sk st h).
Proof.
  intros Hdone Hfuel Hthrow Hnext.
  induction fuel as [|fuel IH]; intros st h;
    destruct (le_lt_dec (length script) (cursor st)) as [Hle|Hlt].
  - rewrite analyze_loop_done by assumption. now apply Hdone.
  - rewrite analyze_loop_out_of_fuel by assumption. now apply Hfuel.
  - rewrite analyze_loop_done by assumption. now apply Hdone.
  - rewrite analyze_loop_step by assumption.
    destruct (iteration lx script st) as [[probes ev] st'] eqn:Hit.
    destruct (deliver sk ev h) as [h'|x h'] eqn:Hsink.
    + apply (Hnext fuel st h probes ev st' h' Hlt Hit Hsink). apply IH.
    + apply (Hthrow fuel st h probes ev st' x h' Hlt Hit Hsink).
Qed.

Lemma lexer_unchanged : forall fuel st h,
  lexer (analyze_loop fuel lx script sk st h) = lx.
Proof.
  apply (analyze_loop_cases (fun _ _ _ r => lexer r = lx)); auto.
Qed.

(** More iterations change nothing once the call has ended. *)
Lemma analyze_loop_more_fuel : forall fuel k st h,
  completion (analyze_loop fuel lx script sk st h) <> Running ->
  analyze_loop (fuel + k) lx script sk st h =
  analyze_loop fuel lx script sk st h.
Proof.
  intros fuel k st h. revert fuel st h.
  apply (analyze_loop_cases
           (fun fuel st h r =>
              completion r <> Running ->
              analyze_loop (fuel + k) lx script sk st h = r)).
  - intros fuel st h Hle _. now apply analyze_loop_done.
  - intros st h _ Hrun. now elim Hrun.
  - intros fuel st h probes ev st' x h' Hlt Hit Hsink _.
    simpl Nat.add. rewrite analyze_loop_step, Hit, Hsink by assumption.
    reflexivity.
  - intros fuel st h probes ev st' h' Hlt Hit Hsink IH Hend.
    simpl Nat.add. rewrite analyze_loop_step, Hit, Hsink by assumption.
    f_equal. apply IH. exact Hend.
Qed.

(** Every event is the event of an iteration at a state of the loop. *)
Lemma events_of_iterations : forall fuel st h,
  reachable lx script st ->
  Forall (fun ev => exists st0 probes st1,
            reachable lx script st0 /\ cursor st0 < length script /\
            iteration lx script st0 = (probes, ev, st1))
         (events (analyze_loop fuel lx script sk st h)).
Proof.
  apply (analyze_loop_cases
           (fun _ st _ r =>
              reachable lx script st ->
              Forall (fun ev => exists st0 probes st1,
                        reachable lx script st0 /\
                        cursor st0 < length script /\
                        iteration lx script st0 = (probes, ev, st1))
                     (events r))).
  - constructor.
  - constructor.
  - intros fuel st h probes ev st' x h' Hlt Hit _ Hreach.
    constructor; [|constructor]. exists st, probes, st'. auto.
  - intros fuel st h probes ev st' h' Hlt Hit _ IH Hreach.
    constructor; [exists st, probes, st'; auto|].
    apply IH. eapply reachable_next; eassumption.
Qed.

(** An exception that leaves the call was thrown by a sink, called with the
    last event. *)
Lemma throws_from_sink : forall fuel st h x,
  completion (analyze_loop fuel lx script sk st h) = Throws x ->
  exists evs ev h0 h1,
    events (analyze_loop fuel lx script sk st h) = evs ++ [ev] /\
    deliver sk ev h0 = Raise x h1 /\
    sink (analyze_loop fuel lx script sk st h) = h1.
Proof.
  apply (analyze_loop_cases
           (fun _ _ _ r =>
              forall x, completion r = Throws x ->
                exists evs ev h0 h1,
                  events r = evs ++ [ev] /\
                  deliver sk ev h0 = Raise x h1 /\ sink r = h1)).
  - discriminate.
  - discriminate.
  - intros fuel st h probes ev st' x h' _ _ Hsink y [= <-].
    exists [], ev, h, h'. auto.
  - intros fuel st h probes ev st' h' _ _ _ IH x Hx.
    destruct (IH x Hx) as (evs & ev' & h0 & h1 & H1 & H2 & H3).
    exists (ev :: evs), ev', h0, h1. simpl. rewrite H1. auto.
Qed.

(** X14. A call of [analyze] returns, from a state of its loop, only where
    the split the scanner itself makes reaches the end of the script from
    the cursor: at every cursor position on the way some rule matched. *)
Lemma returns_only_if_tokenizes : forall fuel st h,
  completion (analyze_loop fuel lx script sk st h) = Returns ->
  tokenizes lx script (cursor st).
Proof.
  apply (analyze_loop_cases
           (fun _ st _ r =>
              completion r = Returns -> tokenizes lx script (cursor st))).
  - intros fuel st h Hle _. now apply tokenizes_end.
  - discriminate.
  - discriminate.
  - intros fuel st h probes ev st' h' Hlt Hit _ IH Hret.
    specialize (IH Hret).
    destruct (first_match_cases script (cursor st) (length script)
                (m_expressions lx))
      as [Hnone | (pre & d & post & m & Hex & Hpre & Hm)].
    + rewrite (iteration_none _ _ _ Hlt Hnone) in Hit.
      injection Hit as _ _ <-. exact IH.
    + rewrite (iteration_some _ _ _ _ _ _ _ Hlt Hex Hpre Hm) in Hit.
      injection Hit as _ _ <-. cbv zeta in IH. cbn [cursor] in IH.
      eapply tokenizes_step;
        [exact Hlt
        |apply (SearchRegex_some _ _ _ _ _ _ _ _ Hlt Hex Hpre Hm)
        |simpl; rewrite Hex, length_app; simpl; lia
        |exact IH].
Qed.

(** Where no rule matches the loop stays: every later event is the same
    no-match event, and the call does not return. *)
Lemma location_at_stuck st : location_at (stuck st) = location_at st.
Proof. reflexivity. Qed.

Lemma stuck_never_returns st :
  cursor st < length script ->
  no_rule_matches lx script (cursor st) ->
  forall fuel h,
    completion (analyze_loop fuel lx script sk st h) <> Returns /\
    Forall (eq (NoMatchEvent (location_at st)))
           (events (analyze_loop fuel lx script sk st h)).
Proof.
  intros Hlt Hnone fuel. revert st Hlt Hnone.
  induction fuel as [|fuel IH]; intros st Hlt Hnone h.
  - rewrite analyze_loop_out_of_fuel by assumption. split; [discriminate | constructor].
  - rewrite analyze_loop_step, (iteration_none _ _ _ Hlt Hnone) by assumption.
    destruct (deliver sk (NoMatchEvent (location_at st)) h) as [h'|x h']; simpl.
    + destruct (IH (stuck st) Hlt Hnone h') as [IH1 IH2].
      split; [exact IH1 | constructor; [reflexivity | exact IH2]].
    + split; [discriminate | constructor; [reflexivity | constructor]].
Qed.

Lemma stuck_forever st :
  cursor st < length script ->
  no_rule_matches lx script (cursor st) ->
  (forall loc h, exists h', onError sk loc h = Return h') ->
  forall fuel h,
    completion (analyze_loop fuel lx script sk st h) = Running /\
    events (analyze_loop fuel lx script sk st h) =
      repeat (NoMatchEvent (location_at st)) fuel.
Proof.
  intros Hlt Hnone Hret fuel. revert st Hlt Hnone.
  induction fuel as [|fuel IH]; intros st Hlt Hnone h.
  - rewrite analyze_loop_out_of_fuel by assumption. split; reflexivity.
  - rewrite analyze_loop_step, (iteration_none _ _ _ Hlt Hnone) by assumption.
    cbn [deliver]. destruct (Hret (location_at st) h) as [h' ->]. simpl.
    destruct (IH (stuck st) Hlt Hnone h') as [IH1 IH2].
    split; [exact IH1 | now rewrite IH2].
Qed.

Lemma stuck_throws st fuel h x h' :
  cursor st < length script ->
  no_rule_matches lx script (cursor st) ->
  onError sk (location_at st) h = Raise x h' ->
  analyze_loop (S fuel) lx script sk st h =
  mkRun [NoMatchEvent (location_at st)] h' lx (Throws x).
Proof.
  intros Hlt Hnone Hsink.
  rewrite analyze_loop_step, (iteration_none _ _ _ Hlt Hnone) by assumption.
  cbn [deliver]. now rewrite Hsink.
Qed.

(** A call that returns has sent match events only, and their spans tile
    the script from the cursor on. *)
Lemma returns_covers : forall fuel st h,
  cursor st <= length script ->
  completion (analyze_loop fuel lx script sk st h) = Returns ->
  covers script (cursor st) (events (analyze_loop fuel lx script sk st h)) /\
  concat (map (lexeme script) (events (analyze_loop fuel lx script sk st h)))
  = skipn (cursor st) script.
Proof.
  induction fuel as [|fuel IH]; intros st h Hle;
    destruct (le_lt_dec (length script) (cursor st)) as [Hdone|Hlt].
  1, 3: rewrite analyze_loop_done by assumption; intros _; simpl;
    replace (cursor st) with (length script) by lia;
    now rewrite skipn_all.
  - rewrite analyze_loop_out_of_fuel by assumption. discriminate.
  - destruct (first_match_cases script (cursor st) (length script)
                (m_expressions lx))
      as [Hnone | (pre & d & post & m & Hex & Hpre & Hm)].
    + intros Hret. now destruct (stuck_never_returns st Hlt Hnone (S fuel) h).
    + rewrite analyze_loop_step, (iteration_some _ _ _ _ _ _ _ Hlt Hex Hpre Hm)
        by assumption.
      destruct (match_in_range _ _ _ _ _ (Nat.le_refl _) Hm) as (Hpos & Hend & _).
      destruct (deliver sk _ h) as [h'|x h']; [|discriminate].
      cbv zeta. simpl. intros Hret.
      match type of Hret with
      | completion (analyze_loop _ _ _ _ ?s _) = _ =>
          destruct (IH s h' Hend Hret) as [IH1 IH2]
      end.
      cbn [cursor] in IH1, IH2. rewrite IH2.
      split; [repeat split; [lia | exact IH1]|].
      rewrite <- !range_to_end. symmetry. apply range_split; lia.
Qed.

(** When the scanner's own split reaches the end and the sinks return, the
    call returns, within as many iterations as characters are left. *)
Lemma tokenizes_returns :
  always_returns sk ->
  forall pos, tokenizes lx script pos ->
  forall st h fuel,
    cursor st = pos -> length script - pos <= fuel ->
    completion (analyze_loop fuel lx script sk st h) = Returns.
Proof.
  intros Hsk pos Htok.
  induction Htok as [pos Hend | pos m probes Hlt Hsearch Htoken _ IH];
    intros st h fuel Hpos Hfuel.
  - rewrite analyze_loop_done by lia. reflexivity.
  - subst pos. destruct fuel as [|fuel]; [lia|].
    destruct (first_match_cases script (cursor st) (length script)
                (m_expressions lx))
      as [Hnone | (pre & d & post & m' & Hex & Hpre & Hm)].
    + rewrite (SearchRegex_none _ _ _ _ Hlt Hnone) in Hsearch.
      injection Hsearch as <- _. simpl in Htoken. lia.
    + rewrite (SearchRegex_some _ _ _ _ _ _ _ _ Hlt Hex Hpre Hm) in Hsearch.
      injection Hsearch as <- _. cbn [LexemeEnd] in IH.
      destruct (match_in_range _ _ _ _ _ (Nat.le_refl _) Hm) as (Hlen & _ & _).
      rewrite analyze_loop_step, (iteration_some _ _ _ _ _ _ _ Hlt Hex Hpre Hm)
        by assumption.
      match goal with
      | |- context [deliver sk ?ev h] => destruct (Hsk ev h) as [h' ->]
      end.
      cbv zeta. simpl. apply IH; [reflexivity | lia].
Qed.

Lemma begins_refl {A : Type} (l : list A) : begins l l.
Proof. exists []. now rewrite app_nil_r. Qed.

Lemma begins_nil {A : Type} (l : list A) : begins [] l.
Proof. now exists l. Qed.

Lemma begins_cons {A : Type} (x : A) (l1 l2 : list A) :
  begins l1 l2 -> begins (x :: l1) (x :: l2).
Proof. intros [rest ->]. now exists rest. Qed.

Lemma begins_comparable {A : Type} : forall (l l1 l2 : list A),
  begins l1 l -> begins l2 l -> begins l1 l2 \/ begins l2 l1.
Proof.
  induction l as [|x l IH]; intros l1 l2 [r1 H1] [r2 H2].
  - destruct l1; [|discriminate]. left. apply begins_nil.
  - destruct l1 as [|y l1]; [left; apply begins_nil|].
    destruct l2 as [|z l2]; [right; apply begins_nil|].
    injection H1 as <- H1. injection H2 as <- H2.
    destruct (IH l1 l2) as [G|G];
      [now exists r1 | now exists r2 | left | right]; now apply begins_cons.
Qed.

Lemma begins_trans {A : Type} (l1 l2 l3 : list A) :
  begins l1 l2 -> begins l2 l3 -> begins l1 l3.
Proof. intros [r1 ->] [r2 ->]. exists (r1 ++ r2). now rewrite app_assoc. Qed.

End Loop.

(** The events of a call begin the events of the call with silent sinks:
    what is sent depends on the table and the script only. *)
Lemma deliver_silent (ev : Event TokenID) : deliver silent ev tt = Return tt.
Proof. destruct ev; reflexivity. Qed.

Lemma events_begin_silent {H X : Type} lx script (sk : Sinks TokenID H X) :
  forall fuel st h,
  begins (events (analyze_loop fuel lx script sk st h))
         (events (analyze_loop fuel lx script silent st tt)).
Proof.
  induction fuel as [|fuel IH]; intros st h;
    destruct (le_lt_dec (length script) (cursor st)) as [Hdone|Hlt].
  - rewrite !analyze_loop_done by assumption. apply begins_refl.
  - rewrite !analyze_loop_out_of_fuel by assumption. apply begins_refl.
  - rewrite !analyze_loop_done by assumption. apply begins_refl.
  - rewrite !analyze_loop_step by assumption.
    destruct (iteration lx script st) as [[probes ev] st'].
    rewrite deliver_silent.
    destruct (deliver sk ev h) as [h'|x h']; simpl.
    + apply begins_cons, IH.
    + apply begins_cons, begins_nil.
Qed.

Lemma returns_silent {H X : Type} lx script (sk : Sinks TokenID H X) :
  forall fuel st h,
  completion (analyze_loop fuel lx script sk st h) = Returns ->
  completion (analyze_loop fuel lx script silent st tt) = Returns /\
  events (analyze_loop fuel lx script sk st h) =
  events (analyze_loop fuel lx script silent st tt).
Proof.
  induction fuel as [|fuel IH]; intros st h;
    destruct (le_lt_dec (length script) (cursor st)) as [Hdone|Hlt].
  - rewrite !analyze_loop_done by assumption. auto.
  - rewrite !analyze_loop_out_of_fuel by assumption. discriminate.
  - rewrite !analyze_loop_done by assumption. auto.
  - rewrite !analyze_loop_step by assumption.
    destruct (iteration lx script st) as [[probes ev] st'].
    rewrite deliver_silent.
    destruct (deliver sk ev h) as [h'|x h']; simpl; [|discriminate].
    intros Hret. destruct (IH st' h' Hret) as [IH1 IH2].
    split; [exact IH1 | now rewrite IH2].
Qed.

Lemma silent_more_fuel (lx : Lexer TokenID) script : forall fuel k st,
  begins (events (analyze_loop fuel lx script silent st tt))
         (events (analyze_loop (fuel + k) lx script silent st tt)).
Proof.
  induction fuel as [|fuel IH]; intros k st;
    destruct (le_lt_dec (length script) (cursor st)) as [Hdone|Hlt].
  - rewrite !analyze_loop_done by assumption. apply begins_refl.
  - rewrite analyze_loop_out_of_fuel by assumption. apply begins_nil.
  - rewrite !analyze_loop_done by assumption. apply begins_refl.
  - simpl Nat.add. rewrite !analyze_loop_step by assumption.
    destruct (iteration lx script st) as [[probes ev] st'].
    rewrite deliver_silent. simpl. apply begins_cons, IH.
Qed.

End Scanner.

(** ** The claims about every table and every script *)

Section Claims.

Context {E : Engine} {TokenID : Type}.

Implicit Types (lx : Lexer TokenID) (script : list ascii) (st : ScanState).

Lemma pass_from_first start end_ : forall n first,
  Forall (fun p => probe_first p = start /\ probe_last p = end_)
         (pass_from first n start end_).
Proof.
  induction n as [|n IH]; intros first; [constructor|].
  rewrite pass_from_cons. constructor; [split; reflexivity | apply IH].
Qed.

Lemma pass_from_rules start end_ : forall n first,
  map probe_rule (pass_from first n start end_) = seq first n.
Proof.
  induction n as [|n IH]; intros first; [reflexivity|].
  rewrite pass_from_cons. simpl. now rewrite IH.
Qed.

(** An iteration outside the script finds nothing. *)
Lemma iteration_outside lx script st :
  length script <= cursor st ->
  exists loc st', iteration lx script st = ([], NoMatchEvent loc, st').
Proof.
  intros Hle. unfold iteration, SearchRegex.
  destruct (length script <=? cursor st) eqn:G;
    [|apply Nat.leb_gt in G; lia].
  cbn [Token LexemeEnd]. rewrite Nat.eqb_refl.
  destruct (CountLineNums script (cursor st) (length script) (lastLineBegin st)).
  eauto.
Qed.

Lemma iteration_advances lx script st :
  advances lx script st (snd (fst (iteration lx script st)))
           (snd (iteration lx script st)).
Proof.
  destruct (le_lt_dec (length script) (cursor st)) as [Hout|Hlt].
  - destruct (iteration_outside lx script st Hout) as (loc & st' & ->).
    exact I.
  - destruct (first_match_cases script (cursor st) (length script)
                (m_expressions lx))
      as [Hnone | (pre & d & post & m & Hex & Hpre & Hm)].
    + rewrite (iteration_none _ _ _ Hlt Hnone). exact I.
    + rewrite (iteration_some _ _ _ _ _ _ _ Hlt Hex Hpre Hm).
      destruct (match_in_range _ _ _ _ _ (Nat.le_refl _) Hm) as (Hpos & Hend & Htext).
      cbv zeta. cbn [fst snd advances cursor].
      repeat split; try lia.
      exists d, m. rewrite Hex. repeat split; try assumption.
      * apply in_or_app. right. left. reflexivity.
      * destruct (str m); [simpl in Hpos; lia | discriminate].
Qed.

(** The events of a call from a state of the loop are sent by the
    iterations from that state on. *)
Lemma analyze_loop_sent_from lx script {H X : Type} (sk : Sinks TokenID H X)
    (P : ScanState -> Event TokenID -> ScanState -> Prop) :
  (forall st, reachable lx script st -> cursor st < length script ->
     P st (snd (fst (iteration lx script st))) (snd (iteration lx script st))) ->
  forall fuel st h,
    reachable lx script st ->
    sent_from lx script P st (events (analyze_loop fuel lx script sk st h)).
Proof.
  intros HP.
  apply (analyze_loop_cases lx script sk
           (fun _ st _ r =>
              reachable lx script st -> sent_from lx script P st (events r))).
  - intros fuel st h _ _. exact I.
  - intros st h _ _. exact I.
  - intros fuel st h probes ev st' x h' Hlt Hit _ Hreach.
    specialize (HP st Hreach Hlt). simpl. rewrite Hit in *. simpl in *. auto.
  - intros fuel st h probes ev st' h' Hlt Hit _ IH Hreach.
    specialize (HP st Hreach Hlt). simpl. rewrite Hit in *. simpl in *.
    repeat split; try assumption.
    apply IH. eapply reachable_next; eassumption.
Qed.

(** The step of the loop at a state inside the script, in terms of the
    iteration there. *)
Lemma analyze_loop_step_iteration lx script {H X : Type}
    (sk : Sinks TokenID H X) st (h : H) (fuel : nat) :
  cursor st < length script ->
  analyze_loop (S fuel) lx script sk st h =
    match deliver sk (snd (fst (iteration lx script st))) h with
    | Raise x h' =>
        mkRun [snd (fst (iteration lx script st))] h' lx (Throws x)
    | Return h' =>
        emit (snd (fst (iteration lx script st)))
             (analyze_loop fuel lx script sk (snd (iteration lx script st)) h')
    end.
Proof.
  intros Hlt. rewrite analyze_loop_step by exact Hlt.
  now destruct (iteration lx script st) as [[probes ev] st'].
Qed.

Lemma iteration_located lx script st :
  reachable lx script st -> cursor st < length script ->
  located_by lx script st (snd (fst (iteration lx script st))).
Proof.
  intros Hreach Hlt.
  destruct (iteration lx script st) as [[probes ev] st'] eqn:Hit.
  pose proof (reachable_tracks _ _ _ Hreach) as Htr.
  destruct (iteration_tracks _ _ _ _ _ _ Hlt Htr Hit) as (Htr' & Hloc & _ & Hln).
  unfold located_by. rewrite Hit. cbn [fst snd].
  split; [reflexivity|]. rewrite Hloc.
  split; [reflexivity|]. split.
  - destruct (first_match_cases script (cursor st) (length script)
                (m_expressions lx))
      as [Hnone | (pre & d & post & m & Hex & Hpre & Hm)].
    + rewrite (iteration_none _ _ _ Hlt Hnone) in Hit. injection Hit as <- _ _.
      eapply Forall_impl; [|apply pass_from_first]. now intros p [? _].
    + rewrite (iteration_some _ _ _ _ _ _ _ Hlt Hex Hpre Hm) in Hit.
      injection Hit as <- _ _.
      eapply Forall_impl; [|apply pass_from_first]. now intros p [? _].
  - split; [now apply tracks_locates|]. split; assumption.
Qed.

(** C4. The events of a call of [analyze] are sent one per iteration, in
    order, the first by the iteration at the initial state and each other
    one by the iteration at the state the one before left.  An iteration
    that sends a match event has found a match that is not empty: the span
    of the event is the text of that match, it begins at the cursor of the
    state the iteration starts from, and it ends at the cursor of the state
    the iteration leaves, which is strictly greater.  That state is the one
    the loop goes on with: at every state inside the script the loop sends
    the event of the iteration there and, when the sink returns, continues
    from the state the iteration leaves. *)
Theorem match_events_advance lx script {H X : Type} (sk : Sinks TokenID H X)
    (h : H) (fuel : nat) :
  sent_from lx script
    (fun st ev st' => reachable lx script st /\ advances lx script st ev st')
    initial (events (analyze fuel lx script sk h)) /\
  forall st (h0 : H) (fuel0 : nat),
    cursor st < length script ->
    advances lx script st (snd (fst (iteration lx script st)))
             (snd (iteration lx script st)) /\
    analyze_loop (S fuel0) lx script sk st h0 =
      match deliver sk (snd (fst (iteration lx script st))) h0 with
      | Raise x h' =>
          mkRun [snd (fst (iteration lx script st))] h' lx (Throws x)
      | Return h' =>
          emit (snd (fst (iteration lx script st)))
               (analyze_loop fuel0 lx script sk
                  (snd (iteration lx script st)) h')
      end.
Proof.
  split.
  - unfold analyze. apply analyze_loop_sent_from; [|apply reachable_initial].
    intros st Hreach _. split; [exact Hreach | apply iteration_advances].
  - intros st h0 fuel0 Hlt.
    split; [apply iteration_advances|].
    apply analyze_loop_step_iteration. exact Hlt.
Qed.

(** C6. The events of a call of [analyze] are sent one per iteration, in
    order, the first by the iteration at the initial state and each other
    one by the iteration at the state the one before left, which is the
    state the loop goes on with.  The [global] of the location of an event
    is the cursor of the state its iteration starts from, where every
    search of the iteration begins; its [line_number] is one more than the
    number of newlines before that offset and its [within_line] one more
    than the distance from the character after the last of them (from the
    start of the script when there is none); and the iteration leaves a
    line counter greater by the number of newlines between the cursor
    before it and the cursor after it. *)
Theorem locations_track_cursor lx script {H X : Type} (sk : Sinks TokenID H X)
    (h : H) (fuel : nat) :
  sent_from lx script
    (fun st ev _ => reachable lx script st /\ located_by lx script st ev)
    initial (events (analyze fuel lx script sk h)) /\
  forall st (h0 : H) (fuel0 : nat),
    reachable lx script st ->
    cursor st < length script ->
    located_by lx script st (snd (fst (iteration lx script st))) /\
    analyze_loop (S fuel0) lx script sk st h0 =
      match deliver sk (snd (fst (iteration lx script st))) h0 with
      | Raise x h' =>
          mkRun [snd (fst (iteration lx script st))] h' lx (Throws x)
      | Return h' =>
          emit (snd (fst (iteration lx script st)))
               (analyze_loop fuel0 lx script sk
                  (snd (iteration lx script st)) h')
      end.
Proof.
  split.
  - unfold analyze. apply analyze_loop_sent_from; [|apply reachable_initial].
    intros st Hreach Hlt. split; [exact Hreach | now apply iteration_located].
  - intros st h0 fuel0 Hreach Hlt.
    split; [now apply iteration_located|].
    apply analyze_loop_step_iteration. exact Hlt.
Qed.

(** C9. On an empty script a call of [analyze] calls neither sink and
    returns without an iteration, whatever the table. *)
Theorem empty_input lx {H X : Type} (sk : Sinks TokenID H X) (h : H)
    (fuel : nat) :
  analyze fuel lx [] sk h = mkRun [] h lx Returns.
Proof.
  unfold analyze. apply analyze_loop_done. simpl. lia.
Qed.

(** C5. Where no rule matches at the cursor, the iteration makes one pass
    over the rules in table order, every search of it from the cursor to the
    end of the script, sends one no-match event with the location of the
    cursor and no match event, and leaves the cursor, the line counter and
    the line-start reference as they were: the call goes on from the same
    position if the error sink returns, and ends there if it throws. *)
Theorem no_match_reports_and_stays lx script st {H X : Type}
    (sk : Sinks TokenID H X) (h : H) (fuel : nat) :
  cursor st < length script ->
  no_rule_matches lx script (cursor st) ->
  iteration lx script st =
    (pass_from 0 (length (m_expressions lx)) (cursor st) (length script),
     NoMatchEvent (location_at st), stuck st) /\
  cursor (stuck st) = cursor st /\
  lastLineBegin (stuck st) = lastLineBegin st /\
  line_number (location (stuck st)) = line_number (location st) /\
  analyze_loop (S fuel) lx script sk st h =
    match onError sk (location_at st) h with
    | Raise x h' => mkRun [NoMatchEvent (location_at st)] h' lx (Throws x)
    | Return h' =>
        emit (NoMatchEvent (location_at st))
             (analyze_loop fuel lx script sk (stuck st) h')
    end.
Proof.
  intros Hlt Hnone. split; [apply iteration_none; assumption|].
  repeat split.
  rewrite analyze_loop_step, (iteration_none _ _ _ Hlt Hnone) by assumption.
  reflexivity.
Qed.

Lemma define_appends lx (id : TokenID) text e :
  compile text = Some e ->
  define id text lx = Return (mkLexer (m_expressions lx ++ [mkTokenDef e id])).
Proof. intros Hc. unfold define. now rewrite Hc. Qed.

(** C8. When the pattern text does not compile, [define] throws the error
    of the regex constructor and leaves the table as it was; a call of
    [analyze] compiles nothing: an exception that leaves it was thrown by a
    sink, and the table after the call is the table before it. *)
Theorem compile_error_at_define lx (id : TokenID) text :
  compile text = None ->
  define id text lx = Raise RegexError lx /\
  forall (H X : Type) (sk : Sinks TokenID H X) (h : H) fuel script,
    lexer (analyze fuel lx script sk h) = lx /\
    forall x, completion (analyze fuel lx script sk h) = Throws x ->
      exists evs ev h0 h1,
        events (analyze fuel lx script sk h) = evs ++ [ev] /\
        deliver sk ev h0 = Raise x h1.
Proof.
  intros Hc. split; [unfold define; now rewrite Hc|].
  intros H X sk h fuel script. split; [apply lexer_unchanged|].
  intros x Hx. destruct (throws_from_sink _ _ _ _ _ _ _ Hx)
    as (evs & ev & h0 & h1 & H1 & H2 & _).
  exists evs, ev, h0, h1. auto.
Qed.

(** C10. What a call of [analyze] sends depends on the table and the script
    only: of two calls on the same table and script, whatever their sinks,
    the events of one begin the events of the other, and they are the same
    events when both calls return; the table after either call is the table
    before it. *)
Theorem analyze_deterministic lx script {H1 X1 H2 X2 : Type}
    (sk1 : Sinks TokenID H1 X1) (sk2 : Sinks TokenID H2 X2)
    (h1 : H1) (h2 : H2) (fuel1 fuel2 : nat) :
  let r1 := analyze fuel1 lx script sk1 h1 in
  let r2 := analyze fuel2 lx script sk2 h2 in
  lexer r1 = lx /\ lexer r2 = lx /\
  (begins (events r1) (events r2) \/ begins (events r2) (events r1)) /\
  (completion r1 = Returns -> completion r2 = Returns ->
   events r1 = events r2).
Proof.
  cbv zeta. unfold analyze.
  split; [apply lexer_unchanged|]. split; [apply lexer_unchanged|].
  pose proof (events_begin_silent lx script sk1 fuel1 initial h1) as B1.
  pose proof (events_begin_silent lx script sk2 fuel2 initial h2) as B2.
  split.
  - apply (begins_comparable
             (events (analyze_loop (fuel1 + fuel2) lx script silent initial tt))).
    + eapply begins_trans; [exact B1 | apply silent_more_fuel].
    + eapply begins_trans; [exact B2|].
      rewrite (Nat.add_comm fuel1 fuel2). apply silent_more_fuel.
  - intros R1 R2.
    destruct (returns_silent _ _ _ _ _ _ R1) as [S1 ->].
    destruct (returns_silent _ _ _ _ _ _ R2) as [S2 ->].
    rewrite <- (analyze_loop_more_fuel lx script silent fuel1 fuel2)
      by (rewrite S1; discriminate).
    rewrite <- (analyze_loop_more_fuel lx script silent fuel2 fuel1 initial tt)
      by (rewrite S2; discriminate).
    now rewrite (Nat.add_comm fuel1 fuel2).
Qed.

Lemma rejected_before lx script pos pre d post k :
  m_expressions lx = pre ++ d :: post ->
  Forall (rejects script pos (length script)) pre ->
  k < length pre -> fails_at lx script pos k.
Proof.
  intros Hex Hpre Hk d' Hd'. rewrite Hex, nth_error_app1 in Hd' by exact Hk.
  apply nth_error_In in Hd'. rewrite Forall_forall in Hpre.
  apply (Hpre _ Hd').
Qed.

(** C1, amended. When two rules both match at the cursor, the one
    registered first before the other, the iteration selects the earliest
    rule of the table that matches there: a rule registered no later than
    the first of the two, and that very rule, with its match, when no rule
    registered before it matches.  The rules after the selected one are not
    searched, the later of the two among them, so the lengths of their
    matches play no part. *)
Theorem earliest_match_is_selected lx script st i j m1 m2 :
  cursor st < length script ->
  i < j ->
  matches_at lx script (cursor st) i m1 ->
  matches_at lx script (cursor st) j m2 ->
  exists k d m,
    k <= i /\
    nth_error (m_expressions lx) k = Some d /\
    regex_search (Expr d) (range script (cursor st) (length script))
                 MatchRegex_flags = Some m /\
    (forall k', k' < k -> fails_at lx script (cursor st) k') /\
    fst (SearchRegex lx script (cursor st) (length script)) =
      mkTokenMatch k (cursor st) (cursor st + length (str m)) /\
    fst (iteration lx script st) =
      (pass_from 0 (S k) (cursor st) (length script),
       MatchEvent (location_at st) (ID d) (cursor st)
                  (cursor st + length (str m))) /\
    ~ In j (map probe_rule (fst (fst (iteration lx script st)))) /\
    range script (cursor st) (cursor st + length (str m)) = str m /\
    ((forall k', k' < i -> fails_at lx script (cursor st) k') ->
     k = i /\ m = m1).
Proof.
  intros Hlt Hij (d1 & Hd1 & Hm1) _.
  destruct (first_match_cases script (cursor st) (length script)
              (m_expressions lx))
    as [Hnone | (pre & d & post & m & Hex & Hpre & Hm)].
  - apply nth_error_In in Hd1. rewrite Forall_forall in Hnone.
    specialize (Hnone _ Hd1). unfold rejects in Hnone. congruence.
  - assert (Hk : length pre <= i).
    { destruct (le_lt_dec (length pre) i) as [G|G]; [exact G|].
      pose proof (rejected_before _ _ _ _ _ _ _ Hex Hpre G _ Hd1). congruence. }
    assert (Hd : nth_error (m_expressions lx) (length pre) = Some d).
    { rewrite Hex, nth_error_app2, Nat.sub_diag by lia. reflexivity. }
    exists (length pre), d, m.
    rewrite (SearchRegex_some _ _ _ _ _ _ _ _ Hlt Hex Hpre Hm).
    rewrite (iteration_some _ _ _ _ _ _ _ Hlt Hex Hpre Hm).
    cbn [fst snd]. rewrite pass_from_rules.
    destruct (match_in_range _ _ _ _ _ (Nat.le_refl _) Hm) as (_ & _ & Htext).
    split; [exact Hk|]. split; [exact Hd|]. split; [exact Hm|].
    split; [intros k' Hk'; apply (rejected_before _ _ _ _ _ _ _ Hex Hpre Hk')|].
    split; [reflexivity|]. split; [reflexivity|].
    split; [rewrite in_seq; lia|]. split; [exact Htext|].
    intros Hearliest.
    assert (Hi : length pre = i).
    { destruct (le_lt_dec i (length pre)) as [G|G]; [lia|].
      specialize (Hearliest _ G _ Hd). congruence. }
    rewrite Hi in Hd. split; [exact Hi | congruence].
Qed.

(** C2, amended. On a script at whose start no rule matches, every event a
    call of [analyze] sends is the no-match event at line 1, column 1, and
    the call does not return: it ends, after exactly one event, when the
    error sink throws at the first; when the error sink always returns the
    cursor stays at the start, and after any number of iterations the call
    is still running and has sent as many copies of the event. *)
Theorem no_match_at_start lx script {H X : Type} (sk : Sinks TokenID H X)
    (h : H) :
  script <> [] ->
  no_rule_matches lx script 0 ->
  (forall fuel,
     Forall (eq (NoMatchEvent (mkLocation 1 1 0)))
            (events (analyze fuel lx script sk h)) /\
     completion (analyze fuel lx script sk h) <> Returns) /\
  (forall fuel x h',
     onError sk (mkLocation 1 1 0) h = Raise x h' ->
     analyze (S fuel) lx script sk h =
     mkRun [NoMatchEvent (mkLocation 1 1 0)] h' lx (Throws x)) /\
  ((forall loc h0, exists h', onError sk loc h0 = Return h') ->
   forall fuel,
     completion (analyze fuel lx script sk h) = Running /\
     events (analyze fuel lx script sk h) =
       repeat (NoMatchEvent (mkLocation 1 1 0)) fuel).
Proof.
  intros Hne Hnone.
  assert (Hlt : cursor initial < length script)
    by (destruct script; [contradiction | simpl; lia]).
  unfold analyze. split; [|split].
  - intros fuel.
    destruct (stuck_never_returns lx script sk initial Hlt Hnone fuel h).
    split; assumption.
  - intros fuel x h' Hsink.
    apply (stuck_throws lx script sk initial fuel h x h' Hlt Hnone Hsink).
  - intros Hret fuel.
    apply (stuck_forever lx script sk initial Hlt Hnone Hret fuel h).
Qed.

(** C3, amended. When the split the scanner itself makes reaches the end of
    the script (at each cursor position from the start on some rule
    matches, and the first such rule in table order fixes the lexeme) and
    the sinks return, a call of [analyze] returns within as many iterations
    as the script has characters, sends match events only, and their spans,
    each beginning where the one before ended, tile the script: the lexemes
    concatenated in order are the script. *)
Theorem first_match_split_covers lx script {H X : Type}
    (sk : Sinks TokenID H X) (h : H) (fuel : nat) :
  tokenizes lx script 0 ->
  always_returns sk ->
  length script <= fuel ->
  completion (analyze fuel lx script sk h) = Returns /\
  covers script 0 (events (analyze fuel lx script sk h)) /\
  Forall (fun ev => is_match ev = true)
         (events (analyze fuel lx script sk h)) /\
  concat (map (lexeme script) (events (analyze fuel lx script sk h))) = script.
Proof.
  intros Htok Hsk Hfuel. unfold analyze.
  assert (Hret : completion (analyze_loop fuel lx script sk initial h) = Returns)
    by (apply (tokenizes_returns lx script sk Hsk 0 Htok); simpl; lia).
  destruct (returns_covers lx script sk fuel initial h) as [Hcov Hcat];
    [simpl; lia | exact Hret |].
  split; [exact Hret|]. split; [exact Hcov|]. split; [|exact Hcat].
  clear Hcat Hret. simpl cursor in Hcov. revert Hcov.
  generalize 0 as pos.
  induction (events (analyze_loop fuel lx script sk initial h)) as [|ev evs IH];
    intros pos Hcov; [constructor|].
  destruct ev as [loc id s e|loc]; simpl in Hcov; [|contradiction].
  destruct Hcov as (_ & _ & Hcov). constructor; [reflexivity | apply (IH _ Hcov)].
Qed.

Lemma newlines_bound s : newlines s <= length s.
Proof. apply count_occ_bound. Qed.

(** X13. The fields of the locations a call of [analyze] sends stay within
    the length of the script plus one: the offset is at most the length,
    the line and the column at most one more; as values of [size_t] they
    do not wrap. *)
Lemma analyze_locations_bounded lx script {H X : Type}
    (sk : Sinks TokenID H X) (h : H) (fuel : nat) :
  Forall (fun ev =>
            global (event_location ev) <= length script /\
            line_number (event_location ev) <= 1 + length script /\
            within_line (event_location ev) <= 1 + length script)
         (events (analyze fuel lx script sk h)).
Proof.
  unfold analyze.
  eapply Forall_impl;
    [|apply events_of_iterations; apply reachable_initial].
  intros ev (st & probes & st' & Hreach & Hlt & Hit).
  pose proof (reachable_tracks _ _ _ Hreach) as Htr.
  destruct (iteration_tracks _ _ _ _ _ _ Hlt Htr Hit) as (_ & -> & _).
  destruct (tracks_locates _ _ Htr)
    as (before & line & Hsplit & Hle & _ & _ & Hln & Hw).
  assert (Hlen : length before + length line = global (location_at st)).
  { rewrite <- length_app, <- Hsplit, length_firstn. lia. }
  pose proof (newlines_bound before). lia.
Qed.

End Claims.

(** ** The examples, on the reference engine *)

Example nested_table_built :
  define_all nested_rules (empty_lexer nat) =
  Return (mkLexer [mkTokenDef (Reference.Char "a") 0;
                   mkTokenDef (Reference.Seq (Reference.Char "a") (Reference.Char "b")) 1;
                   mkTokenDef (Reference.Seq (Reference.Char "a")
                                (Reference.Seq (Reference.Char "b") (Reference.Char "c"))) 2]).
Proof. reflexivity. Qed.

(** A rule that can match nothing is not reported where it matches nothing
    else, and is reported with what it matches where it matches more. *)
Example starred_rule_on_b :
  events (analyze 1 starred_lexer (list_ascii_of_string "b") silent tt) =
  [NoMatchEvent (mkLocation 1 1 0)].
Proof. reflexivity. Qed.

Example starred_rule_on_aab :
  events (analyze 2 starred_lexer (list_ascii_of_string "aab") silent tt) =
  [MatchEvent (mkLocation 1 1 0) "AS"%string 0 2;
   NoMatchEvent (mkLocation 1 3 2)].
Proof. reflexivity. Qed.

Example precedence_example :
  analyze 2 precedence_lexer ab (example_sinks ab) [] =
  mkRun [MatchEvent (mkLocation 1 1 0) "A"%string 0 1;
         NoMatchEvent (mkLocation 1 2 1)]
        [mkMatchedToken (mkLocation 1 1 0) "A"%string ["a"%char]]
        precedence_lexer
        (Throws (mkSyntaxError (mkLocation 1 2 1))).
Proof. reflexivity. Qed.

(** The model gives the output of the README for the text of the README. *)
Example readme_example :
  let r := analyze (length readme_script) readme_lexer readme_script
                   (example_sinks readme_script) [] in
  completion r = Returns /\
  map (fun t => (line_number (token_Location t),
                 within_line (token_Location t), token_ID t, Lexeme t))
      (sink r) = readme_output.
Proof. split; reflexivity. Qed.

(** Every pattern of [main] compiles. *)
Example example_table_built :
  exists lx, define_all example_rules (empty_lexer TOKEN_ID) = Return lx /\
             length (m_expressions lx) = 12.
Proof. eexists. split; reflexivity. Qed.

(** With the error sink of the example, which throws, the call on [$] ends
    after one no-match event. *)
Example dollar_with_example_sinks (fuel : nat) :
  analyze (S fuel) location_arithmetic_lexer dollar (example_sinks dollar) [] =
  mkRun [NoMatchEvent (mkLocation 1 1 0)] [] location_arithmetic_lexer
        (Throws (mkSyntaxError (mkLocation 1 1 0))).
Proof. reflexivity. Qed.

Example literal_newline_pattern :
  compile [newline] = compile (list_ascii_of_string "\n").
Proof. reflexivity. Qed.

Lemma returning_sinks_return {TokenID : Type} script :
  always_returns (@returning_sinks TokenID script).
Proof. intros [loc id s e|loc] h; eexists; reflexivity. Qed.

Lemma returning_error_sink_returns {TokenID : Type} script :
  forall loc h, exists h',
    onError (@returning_sinks TokenID script) loc h = Return h'.
Proof. intros loc h. eexists. reflexivity. Qed.

Lemma dollar_matches_nothing :
  no_rule_matches location_arithmetic_lexer dollar 0.
Proof. repeat constructor. Qed.

(** C1, a counterexample to the claim as stated.  In the table [a], [ab],
    [abc] the second and the third rule both match at the start of the
    script [abc] and the second is registered before the third, yet the
    rule selected is the first one, with the lexeme [a]. *)
Lemma earlier_rule_than_both_selected :
  matches_at nested_lexer abc 0 1 (mkResults [] ab (list_ascii_of_string "c")) /\
  matches_at nested_lexer abc 0 2 (mkResults [] abc []) /\
  fst (SearchRegex nested_lexer abc 0 (length abc)) = mkTokenMatch 0 0 1 /\
  ~ selects_first_of_two nested_lexer abc 0 1 2.
Proof.
  assert (H1 : matches_at nested_lexer abc 0 1
                 (mkResults [] ab (list_ascii_of_string "c")))
    by (eexists; split; reflexivity).
  assert (H2 : matches_at nested_lexer abc 0 2 (mkResults [] abc []))
    by (eexists; split; reflexivity).
  repeat split; try assumption.
  intros Hc. specialize (Hc _ _ (Nat.lt_succ_diag_r 1) H1 H2).
  vm_compute in Hc. discriminate.
Qed.

(** C2, a counterexample to the claim as stated.  No rule of the table
    [INTEGER], [NEWLINE] matches the script [$]; with an error sink that
    returns, two iterations send two no-match events, and no number of
    iterations ends the call. *)
Lemma returning_error_sink_loops :
  no_rule_matches location_arithmetic_lexer dollar 0 /\
  always_returns (@returning_sinks TOKEN_ID dollar) /\
  events (analyze 2 location_arithmetic_lexer dollar (returning_sinks dollar) [])
  = [NoMatchEvent (mkLocation 1 1 0); NoMatchEvent (mkLocation 1 1 0)] /\
  ~ ends_after_one_no_match location_arithmetic_lexer dollar
      (returning_sinks dollar) [].
Proof.
  split; [exact dollar_matches_nothing|].
  split; [apply returning_sinks_return|].
  split; [reflexivity|].
  intros (fuel & Hend & _). apply Hend. unfold analyze.
  apply (stuck_forever location_arithmetic_lexer dollar (returning_sinks dollar)
           initial);
    [simpl; lia | exact dollar_matches_nothing
    | apply returning_error_sink_returns].
Qed.

Lemma precedence_first_iteration :
  iteration precedence_lexer ab initial =
  (pass_from 0 1 0 2, MatchEvent (mkLocation 1 1 0) "A"%string 0 1,
   mkScanState (mkLocation 1 1 0) 1 0).
Proof. reflexivity. Qed.

Lemma b_matches_nothing : no_rule_matches precedence_lexer ab 1.
Proof. repeat constructor. Qed.

(** C3, a counterexample to the claim as stated.  With [A = a] registered
    before [AB = ab], the script [ab] is one text matched by a rule; the
    scanner reports [a] as an [A] and then finds no rule for [b]: whatever
    the sinks do, the events sent are never match events only whose lexemes
    make up the script. *)
Lemma decomposable_script_not_covered :
  decomposable precedence_lexer ab /\
  forall (H X : Type) (sk : Sinks string H X) (h : H),
    ~ reconstructs precedence_lexer ab sk h.
Proof.
  split.
  - exists [ab]. split; [reflexivity|]. constructor; [|constructor].
    eexists _, (mkResults [] ab []). split; [right; left; reflexivity|].
    split; reflexivity.
  - intros H X sk h (fuel & Hall & Hcat). unfold analyze in *.
    destruct fuel as [|fuel]; [discriminate Hcat|].
    rewrite analyze_loop_step, precedence_first_iteration in * by (simpl; lia).
    destruct (deliver sk _ h) as [h'|x h']; [|discriminate Hcat].
    destruct fuel as [|fuel]; [discriminate Hcat|].
    rewrite analyze_loop_step in Hall by (simpl; lia).
    rewrite (iteration_none precedence_lexer ab
               (mkScanState (mkLocation 1 1 0) 1 0)
               (Nat.lt_succ_diag_r 1) b_matches_nothing) in Hall.
    destruct (deliver sk (NoMatchEvent _) h'); simpl in Hall;
      inversion Hall as [|? ? _ Hrest]; inversion Hrest; discriminate.
Qed.

(** C7. The table [INTEGER = [0-9]+], [NEWLINE = \n] is built by two calls
    of [define]; on the script 1, 2, newline, 3, 4, with the sinks of the
    example, a call of [analyze] returns after three iterations having sent
    three match events and no other: [INTEGER] over [12] at line 1, column
    1; [NEWLINE] over the newline at line 1, column 3; [INTEGER] over [34]
    at line 2, column 1. *)
Theorem location_arithmetic_example (k : nat) :
  define_all location_arithmetic_rules (empty_lexer TOKEN_ID) =
    Return location_arithmetic_lexer /\
  analyze (3 + k) location_arithmetic_lexer twelve_thirtyfour
          (example_sinks twelve_thirtyfour) [] =
  mkRun [MatchEvent (mkLocation 1 1 0) TOKEN_INTEGER 0 2;
         MatchEvent (mkLocation 1 3 2) TOKEN_NEWLINE 2 3;
         MatchEvent (mkLocation 2 1 3) TOKEN_INTEGER 3 5]
        [mkMatchedToken (mkLocation 1 1 0) TOKEN_INTEGER ["1"; "2"]%char;
         mkMatchedToken (mkLocation 1 3 2) TOKEN_NEWLINE [newline];
         mkMatchedToken (mkLocation 2 1 3) TOKEN_INTEGER ["3"; "4"]%char]
        location_arithmetic_lexer Returns.
Proof.
  split; [reflexivity|]. unfold analyze.
  rewrite analyze_loop_more_fuel; [reflexivity|].
  vm_compute. discriminate.
Qed.

(** ** The theorems with hypotheses, at concrete inputs *)

(** C1 at the precedence example: [A = a] before [AB = ab] at the start of
    [ab], where no rule is registered before [A]. *)
Lemma earliest_match_is_selected_witness :
  let lx := precedence_lexer in
  let script := ab in
  let st := initial in
  let i := 0 in
  let j := 1 in
  let m1 := mkResults [] (list_ascii_of_string "a") (list_ascii_of_string "b") in
  let m2 := mkResults [] ab [] in
  (cursor st < length script /\ i < j /\
   matches_at lx script (cursor st) i m1 /\
   matches_at lx script (cursor st) j m2) /\
  exists k d m,
    k <= i /\
    nth_error (m_expressions lx) k = Some d /\
    regex_search (Expr d) (range script (cursor st) (length script))
                 MatchRegex_flags = Some m /\
    (forall k', k' < k -> fails_at lx script (cursor st) k') /\
    fst (SearchRegex lx script (cursor st) (length script)) =
      mkTokenMatch k (cursor st) (cursor st + length (str m)) /\
    fst (iteration lx script st) =
      (pass_from 0 (S k) (cursor st) (length script),
       MatchEvent (location_at st) (ID d) (cursor st)
                  (cursor st + length (str m))) /\
    ~ In j (map probe_rule (fst (fst (iteration lx script st)))) /\
    range script (cursor st) (cursor st + length (str m)) = str m /\
    ((forall k', k' < i -> fails_at lx script (cursor st) k') ->
     k = i /\ m = m1).
Proof.
  intros lx script st i j m1 m2.
  assert (H1 : cursor st < length script) by (vm_compute; lia).
  assert (H2 : i < j) by (vm_compute; lia).
  assert (H3 : matches_at lx script (cursor st) i m1)
    by (eexists; split; reflexivity).
  assert (H4 : matches_at lx script (cursor st) j m2)
    by (eexists; split; reflexivity).
  split; [repeat split; assumption|].
  exact (earliest_match_is_selected lx script st i j m1 m2 H1 H2 H3 H4).
Defined.

(** C2 at the script [$] with the table [INTEGER], [NEWLINE] and an error
    sink that returns. *)
Lemma no_match_at_start_witness :
  let lx := location_arithmetic_lexer in
  let script := dollar in
  let sk := @returning_sinks TOKEN_ID dollar in
  let h := @nil (MatchedToken TOKEN_ID) in
  (script <> [] /\ no_rule_matches lx script 0) /\
  (forall fuel,
     Forall (eq (NoMatchEvent (mkLocation 1 1 0)))
            (events (analyze fuel lx script sk h)) /\
     completion (analyze fuel lx script sk h) <> Returns) /\
  (forall fuel x h',
     onError sk (mkLocation 1 1 0) h = Raise x h' ->
     analyze (S fuel) lx script sk h =
     mkRun [NoMatchEvent (mkLocation 1 1 0)] h' lx (Throws x)) /\
  ((forall loc h0, exists h', onError sk loc h0 = Return h') ->
   forall fuel,
     completion (analyze fuel lx script sk h) = Running /\
     events (analyze fuel lx script sk h) =
       repeat (NoMatchEvent (mkLocation 1 1 0)) fuel).
Proof.
  intros lx script sk h.
  assert (H1 : script <> []) by discriminate.
  assert (H2 : no_rule_matches lx script 0) by (repeat constructor).
  split; [split; assumption|].
  exact (no_match_at_start lx script sk h H1 H2).
Defined.

(** The split of the location example: [12], newline, [34]. *)
Lemma location_example_tokenizes :
  tokenizes location_arithmetic_lexer twelve_thirtyfour 0.
Proof.
  eapply tokenizes_step;
    [vm_compute; lia | vm_compute; reflexivity | vm_compute; lia |].
  eapply tokenizes_step;
    [vm_compute; lia | vm_compute; reflexivity | vm_compute; lia |].
  eapply tokenizes_step;
    [vm_compute; lia | vm_compute; reflexivity | vm_compute; lia |].
  apply tokenizes_end. vm_compute. lia.
Defined.

(** C3 at the location example, with five iterations allowed. *)
Lemma first_match_split_covers_witness :
  let lx := location_arithmetic_lexer in
  let script := twelve_thirtyfour in
  let sk := @returning_sinks TOKEN_ID twelve_thirtyfour in
  let h := @nil (MatchedToken TOKEN_ID) in
  let fuel := 5 in
  (tokenizes lx script 0 /\ always_returns sk /\ length script <= fuel) /\
  completion (analyze fuel lx script sk h) = Returns /\
  covers script 0 (events (analyze fuel lx script sk h)) /\
  Forall (fun ev => is_match ev = true)
         (events (analyze fuel lx script sk h)) /\
  concat (map (lexeme script) (events (analyze fuel lx script sk h))) = script.
Proof.
  intros lx script sk h fuel.
  assert (H1 : tokenizes lx script 0) by exact location_example_tokenizes.
  assert (H2 : always_returns sk)
    by (intros [loc id s e|loc] h0; eexists; reflexivity).
  assert (H3 : length script <= fuel) by (vm_compute; lia).
  split; [repeat split; assumption|].
  exact (first_match_split_covers lx script sk h fuel H1 H2 H3).
Defined.

(** C4 at the location example: the events of the whole run, and the step
    of the loop at the initial state. *)
Lemma match_events_advance_witness :
  let lx := location_arithmetic_lexer in
  let script := twelve_thirtyfour in
  let sk := @example_sinks TOKEN_ID twelve_thirtyfour in
  let h := @nil (MatchedToken TOKEN_ID) in
  sent_from lx script
    (fun st ev st' => reachable lx script st /\ advances lx script st ev st')
    initial (events (analyze 3 lx script sk h)) /\
  cursor initial < length script /\
  advances lx script initial (snd (fst (iteration lx script initial)))
           (snd (iteration lx script initial)) /\
  analyze_loop 1 lx script sk initial h =
    match deliver sk (snd (fst (iteration lx script initial))) h with
    | Raise x h' =>
        mkRun [snd (fst (iteration lx script initial))] h' lx (Throws x)
    | Return h' =>
        emit (snd (fst (iteration lx script initial)))
             (analyze_loop 0 lx script sk
                (snd (iteration lx script initial)) h')
    end.
Proof.
  intros lx script sk h.
  assert (H1 : cursor initial < length script) by (vm_compute; lia).
  split; [exact (proj1 (match_events_advance lx script sk h 3))|].
  split; [exact H1|].
  exact (proj2 (match_events_advance lx script sk h 3) initial h 0 H1).
Defined.

(** C6 at the location example: the events of the whole run, and the step
    of the loop at the initial state. *)
Lemma locations_track_cursor_witness :
  let lx := location_arithmetic_lexer in
  let script := twelve_thirtyfour in
  let sk := @example_sinks TOKEN_ID twelve_thirtyfour in
  let h := @nil (MatchedToken TOKEN_ID) in
  sent_from lx script
    (fun st ev _ => reachable lx script st /\ located_by lx script st ev)
    initial (events (analyze 3 lx script sk h)) /\
  (reachable lx script initial /\ cursor initial < length script) /\
  located_by lx script initial (snd (fst (iteration lx script initial))) /\
  analyze_loop 1 lx script sk initial h =
    match deliver sk (snd (fst (iteration lx script initial))) h with
    | Raise x h' =>
        mkRun [snd (fst (iteration lx script initial))] h' lx (Throws x)
    | Return h' =>
        emit (snd (fst (iteration lx script initial)))
             (analyze_loop 0 lx script sk
                (snd (iteration lx script initial)) h')
    end.
Proof.
  intros lx script sk h.
  assert (H1 : reachable lx script initial) by apply reachable_initial.
  assert (H2 : cursor initial < length script) by (vm_compute; lia).
  split; [exact (proj1 (locations_track_cursor lx script sk h 3))|].
  split; [split; assumption|].
  exact (proj2 (locations_track_cursor lx script sk h 3) initial h 0 H1 H2).
Defined.

(** C5 at the start of the script [$]. *)
Lemma no_match_reports_and_stays_witness :
  let lx := location_arithmetic_lexer in
  let script := dollar in
  let st := initial in
  let sk := @returning_sinks TOKEN_ID dollar in
  let h := @nil (MatchedToken TOKEN_ID) in
  let fuel := 1 in
  (cursor st < length script /\ no_rule_matches lx script (cursor st)) /\
  iteration lx script st =
    (pass_from 0 (length (m_expressions lx)) (cursor st) (length script),
     NoMatchEvent (location_at st), stuck st) /\
  cursor (stuck st) = cursor st /\
  lastLineBegin (stuck st) = lastLineBegin st /\
  line_number (location (stuck st)) = line_number (location st) /\
  analyze_loop (S fuel) lx script sk st h =
    match onError sk (location_at st) h with
    | Raise x h' => mkRun [NoMatchEvent (location_at st)] h' lx (Throws x)
    | Return h' =>
        emit (NoMatchEvent (location_at st))
             (analyze_loop fuel lx script sk (stuck st) h')
    end.
Proof.
  intros lx script st sk h fuel.
  assert (H1 : cursor st < length script) by (vm_compute; lia).
  assert (H2 : no_rule_matches lx script (cursor st)) by (repeat constructor).
  split; [split; assumption|].
  exact (no_match_reports_and_stays lx script st sk h fuel H1 H2).
Defined.

(** C8 at a bracket class that is not closed. *)
Lemma compile_error_at_define_witness :
  let lx := location_arithmetic_lexer in
  let id := TOKEN_FLOAT in
  let text := list_ascii_of_string "[0-9" in
  compile text = None /\
  define id text lx = Raise RegexError lx /\
  forall (H X : Type) (sk : Sinks TOKEN_ID H X) (h : H) fuel script,
    lexer (analyze fuel lx script sk h) = lx /\
    forall x, completion (analyze fuel lx script sk h) = Throws x ->
      exists evs ev h0 h1,
        events (analyze fuel lx script sk h) = evs ++ [ev] /\
        deliver sk ev h0 = Raise x h1.
Proof.
  intros lx id text.
  assert (H1 : compile text = None) by reflexivity.
  split; [exact H1|].
  exact (compile_error_at_define lx id text H1).
Defined.

(** C10 at the location example: the sinks of the example with three
    iterations allowed, silent sinks with seven. *)
Lemma analyze_deterministic_witness :
  let lx := location_arithmetic_lexer in
  let script := twelve_thirtyfour in
  let r1 := analyze 3 lx script (example_sinks script) [] in
  let r2 := analyze 7 lx script silent tt in
  (completion r1 = Returns /\ completion r2 = Returns) /\
  lexer r1 = lx /\ lexer r2 = lx /\ events r1 = events r2.
Proof.
  intros lx script r1 r2.
  assert (H1 : completion r1 = Returns) by reflexivity.
  assert (H2 : completion r2 = Returns) by reflexivity.
  split; [split; assumption|].
  destruct (analyze_deterministic lx script (example_sinks script) silent
              [] tt 3 7) as (L1 & L2 & _ & Heq).
  split; [exact L1|]. split; [exact L2|]. exact (Heq H1 H2).
Defined.

(** * Further properties of [Lex.h] *)

Section Further.

Context {E : Engine} {TokenID : Type}.

Implicit Types (lx : Lexer TokenID) (script : list ascii) (st : ScanState).

(** X1. [SearchRegex] over a range that is not empty and lies in the script
    answers within it: the lexeme starts at [start] and ends no later than
    [end]; the iterator is the end one exactly when the lexeme is empty,
    and otherwise it points at a rule whose match is the text of the
    lexeme. *)
Theorem SearchRegex_within_range lx script start end_ :
  start < end_ ->
  end_ <= length script ->
  let m := fst (SearchRegex lx script start end_) in
  LexemeStart m = start /\
  start <= LexemeEnd m /\
  LexemeEnd m <= end_ /\
  Token m <= length (m_expressions lx) /\
  (Token m = length (m_expressions lx) <-> LexemeEnd m = start) /\
  (Token m < length (m_expressions lx) ->
   exists d results,
     nth_error (m_expressions lx) (Token m) = Some d /\
     regex_search (Expr d) (range script start end_) MatchRegex_flags
     = Some results /\
     range script start (LexemeEnd m) = str results).
Proof.
  intros Hlt Hend. cbv zeta.
  destruct (first_match_cases script start end_ (m_expressions lx))
    as [Hnone | (pre & d & post & m & Hex & Hpre & Hm)].
  - rewrite (SearchRegex_none _ _ _ _ Hlt Hnone). cbn [fst Token LexemeStart LexemeEnd].
    repeat split; try lia.
  - rewrite (SearchRegex_some _ _ _ _ _ _ _ _ Hlt Hex Hpre Hm).
    cbn [fst Token LexemeStart LexemeEnd].
    destruct (match_in_range _ _ _ _ _ Hend Hm) as (Hpos & Hin & Htext).
    assert (Hlen : length (m_expressions lx) = length pre + S (length post))
      by (rewrite Hex, length_app; reflexivity).
    repeat split; try lia.
    intros _. exists d, m. split; [|split; assumption].
    rewrite Hex, nth_error_app2, Nat.sub_diag by lia. reflexivity.
Qed.

(** The loop of [CountLineNums] counts the newlines of the range it walks
    and leaves the reference after the last of them. *)
Lemma CountLineNums_loop_counts script : forall n a llb cnt,
  a + n <= length script ->
  fst (CountLineNums_loop n script a llb cnt) =
    cnt + newlines (range script a (a + n)) /\
  (newlines (range script a (a + n)) = 0 ->
   snd (CountLineNums_loop n script a llb cnt) = llb) /\
  (0 < newlines (range script a (a + n)) ->
   exists pre post,
     range script a (a + n) = pre ++ newline :: post /\
     newlines post = 0 /\
     snd (CountLineNums_loop n script a llb cnt) = a + length pre + 1).
Proof.
  induction n as [|n IH]; intros a llb cnt Hlen.
  - rewrite Nat.add_0_r, range_empty by lia. unfold newlines. simpl.
    split; [lia|]. split; [reflexivity | lia].
  - destruct (nth_error script a) as [c|] eqn:Hc;
      [|apply nth_error_None in Hc; lia].
    rewrite (range_first _ _ _ _ Hc) by lia.
    rewrite newlines_cons. simpl CountLineNums_loop. rewrite Hc.
    replace (a + S n) with (a + 1 + n) by lia.
    replace (S a) with (a + 1) by lia.
    destruct (Ascii.eqb c newline) eqn:Hnl.
    + apply Ascii.eqb_eq in Hnl. subst c.
      destruct (IH (a + 1) (a + 1) (cnt + 1)) as (H1 & H2 & H3); [lia|].
      split; [rewrite H1; lia|]. split; [lia|]. intros _.
      destruct (Nat.eq_dec (newlines (range script (a + 1) (a + 1 + n))) 0)
        as [Hz|Hnz].
      * exists [], (range script (a + 1) (a + 1 + n)).
        rewrite (H2 Hz). simpl. repeat split; [assumption | lia].
      * destruct H3 as (pre & post & Hr & Hp & Hs); [lia|].
        exists (newline :: pre), post. rewrite Hr, Hs. simpl.
        repeat split; [assumption | lia].
    + destruct (IH (a + 1) llb cnt) as (H1 & H2 & H3); [lia|].
      split; [rewrite H1; lia|]. split; [exact H2|]. intros Hpos.
      destruct H3 as (pre & post & Hr & Hp & Hs); [lia|].
      exists (c :: pre), post. rewrite Hr, Hs. simpl.
      repeat split; [assumption | lia].
Qed.

(** X2. [CountLineNums] over a range of the script returns the number of
    newline characters in it; it leaves the line-start reference as it was
    when there is none, and otherwise at the offset after the last newline
    of the range. *)
Theorem CountLineNums_counts script a b lineLineBegin :
  a <= b ->
  b <= length script ->
  fst (CountLineNums script a b lineLineBegin) = newlines (range script a b) /\
  (newlines (range script a b) = 0 ->
   snd (CountLineNums script a b lineLineBegin) = lineLineBegin) /\
  (0 < newlines (range script a b) ->
   exists pre post,
     range script a b = pre ++ newline :: post /\
     newlines post = 0 /\
     snd (CountLineNums script a b lineLineBegin) = a + length pre + 1).
Proof.
  intros Hab Hb. unfold CountLineNums.
  destruct (CountLineNums_loop_counts script (b - a) a lineLineBegin 0)
    as (H1 & H2 & H3); [lia|].
  replace (a + (b - a)) with b in * by lia.
  split; [exact H1|]. split; assumption.
Qed.

(** ** The shape of what a call sends *)

Lemma spans_length : forall (evs : list (Event TokenID)) pos p,
  spans pos evs p -> pos + length evs <= p.
Proof.
  induction evs as [|[loc id s e|loc] evs IH]; intros pos p; simpl.
  - intros ->. lia.
  - intros (_ & Hlt & Hrest). specialize (IH _ _ Hrest). lia.
  - contradiction.
Qed.

Lemma spans_matches : forall (evs : list (Event TokenID)) pos p,
  spans pos evs p -> Forall (fun ev => is_match ev = true) evs.
Proof.
  induction evs as [|[loc id s e|loc] evs IH]; intros pos p; simpl.
  - constructor.
  - intros (_ & _ & Hrest). constructor; [reflexivity | apply (IH _ _ Hrest)].
  - contradiction.
Qed.

Lemma no_matches_filtered (loc : Location) (evs : list (Event TokenID)) :
  Forall (eq (NoMatchEvent loc)) evs -> filter is_match evs = [].
Proof.
  induction 1 as [|ev evs <- _ IH]; [reflexivity | exact IH].
Qed.

Section Shape.

Context {H X : Type}.
Variable lx : Lexer TokenID.
Variable script : list ascii.
Variable sk : Sinks TokenID H X.

Lemma shaped_emit_match st st' (r : Run TokenID H X) loc id len :
  0 < len ->
  cursor st' = cursor st + len ->
  cursor st' <= length script ->
  shaped lx script st' r ->
  shaped lx script st (emit (MatchEvent loc id (cursor st) (cursor st + len)) r).
Proof.
  intros Hlen Hc Hle (ms & ns & p & Hev & Hsp & Hp & Hcat & Hns & Hret).
  exists (MatchEvent loc id (cursor st) (cursor st + len) :: ms), ns, p.
  pose proof (spans_length _ _ _ Hsp) as Hbound.
  simpl. rewrite Hev, Hcat, Hc in *.
  split; [reflexivity|]. split; [repeat split; [lia | exact Hsp]|].
  split; [exact Hp|]. split; [symmetry; apply range_split; lia|].
  split; [exact Hns | exact Hret].
Qed.

Lemma analyze_loop_shaped : forall fuel st h,
  cursor st <= length script ->
  shaped lx script st (analyze_loop fuel lx script sk st h).
Proof.
  apply (analyze_loop_cases lx script sk
           (fun _ st _ r => cursor st <= length script -> shaped lx script st r)).
  - intros fuel st h Hge Hle. exists [], [], (cursor st). simpl.
    rewrite range_empty by lia. repeat split; auto; lia.
  - intros st h Hlt _. exists [], [], (cursor st). simpl.
    rewrite range_empty by lia. repeat split; auto; try lia; discriminate.
  - intros fuel st h probes ev st' x h' Hlt Hit _ _.
    destruct (first_match_cases script (cursor st) (length script)
                (m_expressions lx))
      as [Hnone | (pre & d & post & m & Hex & Hpre & Hm)].
    + rewrite (iteration_none _ _ _ Hlt Hnone) in Hit. injection Hit as _ <- _.
      exists [], [NoMatchEvent (location_at st)], (cursor st). simpl.
      rewrite range_empty by lia.
      repeat split; auto; try lia; try discriminate.
      right. repeat split; try assumption.
      exists (location_at st). split; [reflexivity | repeat constructor].
    + rewrite (iteration_some _ _ _ _ _ _ _ Hlt Hex Hpre Hm) in Hit.
      injection Hit as _ <- _.
      destruct (match_in_range _ _ _ _ _ (Nat.le_refl _) Hm) as (Hpos & Hend & _).
      exists [MatchEvent (location_at st) (ID d) (cursor st)
                         (cursor st + length (str m))],
             [], (cursor st + length (str m)).
      simpl. rewrite app_nil_r.
      repeat split; auto; try lia; discriminate.
  - intros fuel st h probes ev st' h' Hlt Hit _ IH _.
    destruct (first_match_cases script (cursor st) (length script)
                (m_expressions lx))
      as [Hnone | (pre & d & post & m & Hex & Hpre & Hm)].
    + rewrite (iteration_none _ _ _ Hlt Hnone) in Hit. injection Hit as _ <- <-.
      destruct (stuck_never_returns lx script sk (stuck st) Hlt Hnone fuel h')
        as [Hnot Hall].
      exists [], (NoMatchEvent (location_at st)
                    :: events (analyze_loop fuel lx script sk (stuck st) h')),
             (cursor st).
      simpl. rewrite range_empty by lia.
      split; [reflexivity|]. split; [reflexivity|]. split; [lia|].
      split; [reflexivity|]. split; [|intros Hret; now elim Hnot].
      right. repeat split; try assumption.
      exists (location_at st). split; [reflexivity|].
      constructor; [reflexivity | exact Hall].
    + rewrite (iteration_some _ _ _ _ _ _ _ Hlt Hex Hpre Hm) in Hit.
      injection Hit as _ <- <-.
      destruct (match_in_range _ _ _ _ _ (Nat.le_refl _) Hm) as (Hpos & Hend & _).
      cbv zeta in *.
      match goal with
      | |- shaped _ _ _ (emit _ (analyze_loop _ _ _ _ ?s _)) =>
          apply (shaped_emit_match st s _ _ _ (length (str m)));
            [exact Hpos | reflexivity | exact Hend | apply IH; exact Hend]
      end.
Qed.

(** With an error sink that throws whatever it is called with, each
    iteration moves the cursor forward or ends the call. *)
Lemma throwing_error_sink_ends :
  (forall loc h, exists x h', onError sk loc h = Raise x h') ->
  forall fuel st h,
    length script - cursor st <= fuel ->
    completion (analyze_loop fuel lx script sk st h) <> Running.
Proof.
  intros Hthrows.
  apply (analyze_loop_cases lx script sk
           (fun fuel st _ r =>
              length script - cursor st <= fuel -> completion r <> Running)).
  - discriminate.
  - intros st h Hlt Hfuel. lia.
  - discriminate.
  - intros fuel st h probes ev st' h' Hlt Hit Hsink IH Hfuel. simpl.
    destruct (first_match_cases script (cursor st) (length script)
                (m_expressions lx))
      as [Hnone | (pre & d & post & m & Hex & Hpre & Hm)].
    + rewrite (iteration_none _ _ _ Hlt Hnone) in Hit. injection Hit as _ <- _.
      simpl in Hsink. destruct (Hthrows (location_at st) h) as (x & h0 & Hx).
      congruence.
    + rewrite (iteration_some _ _ _ _ _ _ _ Hlt Hex Hpre Hm) in Hit.
      injection Hit as _ _ <-.
      destruct (match_in_range _ _ _ _ _ (Nat.le_refl _) Hm) as (Hpos & _ & _).
      apply IH. cbv zeta. cbn [cursor]. lia.
Qed.

(** The locations sent describe their offsets. *)
Lemma events_locate : forall fuel h,
  Forall (fun ev => locates script (event_location ev))
         (events (analyze fuel lx script sk h)).
Proof.
  intros fuel h. unfold analyze.
  eapply Forall_impl;
    [|apply events_of_iterations; apply reachable_initial].
  intros ev (st & probes & st' & Hreach & Hlt & Hit).
  pose proof (reachable_tracks _ _ _ Hreach) as Htr.
  destruct (iteration_tracks _ _ _ _ _ _ Hlt Htr Hit) as (_ & -> & _).
  now apply tracks_locates.
Qed.

End Shape.

(** X3. Whatever the sinks do and however the call ends, the events of a
    call of [analyze] are match events whose spans, none empty, each
    beginning where the one before ended, tile the script from its start
    to an offset [p], their lexemes concatenated being the first [p]
    characters; they are followed by no-match events only when no rule
    matches at [p], all of them copies of one event located at [p]; and
    when the call returns there is none and [p] is the end of the script. *)
Theorem events_are_matches_then_no_match lx script {H X : Type}
    (sk : Sinks TokenID H X) (h : H) (fuel : nat) :
  exists ms ns p,
    events (analyze fuel lx script sk h) = ms ++ ns /\
    spans 0 ms p /\
    p <= length script /\
    concat (map (lexeme script) ms) = firstn p script /\
    (ns = [] \/
     p < length script /\ no_rule_matches lx script p /\
     exists loc, global loc = p /\ Forall (eq (NoMatchEvent loc)) ns) /\
    (completion (analyze fuel lx script sk h) = Returns ->
     ns = [] /\ p = length script).
Proof.
  destruct (analyze_loop_shaped lx script sk fuel initial h (Nat.le_0_l _))
    as (ms & ns & p & Hev & Hsp & Hp & Hcat & Hns & Hret).
  exists ms, ns, p. unfold analyze.
  split; [exact Hev|]. split; [exact Hsp|]. split; [exact Hp|].
  split; [|split; assumption].
  rewrite Hcat. unfold range. simpl. now rewrite Nat.sub_0_r.
Qed.

(** X4. A call of [analyze] calls the match sink at most once per character
    of the script, and a call that returns has made no more iterations than
    the script has characters. *)
Theorem match_events_bounded lx script {H X : Type}
    (sk : Sinks TokenID H X) (h : H) (fuel : nat) :
  length (filter is_match (events (analyze fuel lx script sk h)))
    <= length script /\
  (completion (analyze fuel lx script sk h) = Returns ->
   length (events (analyze fuel lx script sk h)) <= length script).
Proof.
  destruct (analyze_loop_shaped lx script sk fuel initial h (Nat.le_0_l _))
    as (ms & ns & p & Hev & Hsp & Hp & _ & Hns & Hret).
  unfold analyze. rewrite Hev.
  pose proof (spans_length _ _ _ Hsp) as Hlen. simpl in Hlen.
  split.
  - rewrite filter_app, length_app.
    pose proof (filter_length_le is_match ms) as Hms.
    destruct Hns as [-> | (_ & _ & loc & _ & Hall)].
    + simpl. lia.
    + rewrite (no_matches_filtered _ _ Hall). simpl. lia.
  - intros Hr. destruct (Hret Hr) as [-> _].
    rewrite app_nil_r. lia.
Qed.

(** X5. A sequence of calls of [define] on one lexer appends the rules in
    the order of the calls, each with the regex compiled from its text,
    after the rules the lexer had; when the text of one does not compile
    the sequence ends there with the error of the regex constructor, and
    the table holds the rules defined before it and no other. *)
Theorem define_all_in_order : forall (rules : list (TokenID * string)) lx,
  let defined (r : TokenID * string) (d : TokenDef TokenID) :=
    ID d = fst r /\ compile (list_ascii_of_string (snd r)) = Some (Expr d) in
  match define_all rules lx with
  | Return lx' =>
      exists defs,
        m_expressions lx' = m_expressions lx ++ defs /\
        Forall2 defined rules defs
  | Raise _ lx' =>
      exists before r after defs,
        rules = before ++ r :: after /\
        compile (list_ascii_of_string (snd r)) = None /\
        m_expressions lx' = m_expressions lx ++ defs /\
        Forall2 defined before defs
  end.
Proof.
  cbv zeta. induction rules as [|[id text] rules IH]; intros lx; simpl.
  - exists []. split; [now rewrite app_nil_r | constructor].
  - unfold define.
    destruct (compile (list_ascii_of_string text)) as [e|] eqn:Hc.
    + specialize (IH (mkLexer (m_expressions lx ++ [mkTokenDef e id]))).
      destruct (define_all rules _) as [lx'|x lx']; simpl in IH.
      * destruct IH as (defs & Hex & Hall).
        exists (mkTokenDef e id :: defs). rewrite Hex, <- app_assoc.
        split; [reflexivity|]. constructor; [split; [reflexivity | exact Hc]|].
        exact Hall.
      * destruct IH as (before & r & after & defs & -> & Hr & Hex & Hall).
        exists ((id, text) :: before), r, after, (mkTokenDef e id :: defs).
        rewrite Hex, <- app_assoc.
        repeat split; try assumption. constructor; [split; [reflexivity | exact Hc]|].
        exact Hall.
    + exists [], (id, text), rules, [].
      repeat split; [exact Hc | now rewrite app_nil_r | constructor].
Qed.

(** X6. With an error sink that throws whatever it is called with, a call
    of [analyze] ends, by returning or by an exception of a sink, within as
    many iterations as the script has characters, whatever the table and
    the match sink. *)
Theorem throwing_error_sink_terminates lx script {H X : Type}
    (sk : Sinks TokenID H X) (h : H) (fuel : nat) :
  (forall loc h0, exists x h', onError sk loc h0 = Raise x h') ->
  length script <= fuel ->
  completion (analyze fuel lx script sk h) = Returns \/
  exists x, completion (analyze fuel lx script sk h) = Throws x.
Proof.
  intros Hthrows Hfuel.
  pose proof (throwing_error_sink_ends lx script sk Hthrows fuel initial h)
    as Hend.
  unfold analyze.
  destruct (completion (analyze_loop fuel lx script sk initial h)) as [|x|].
  - now left.
  - right. now exists x.
  - elim Hend; [simpl; lia | reflexivity].
Qed.

(** ** The sinks of the example *)

Lemma lexemes_of_tokens script (evs : list (Event TokenID)) :
  concat (map (@Lexeme TokenID) (flat_map (token_of script) evs)) =
  concat (map (lexeme script) evs).
Proof.
  induction evs as [|[loc id s e|loc] evs IH]; simpl; [reflexivity | |exact IH].
  now rewrite IH.
Qed.

Lemma lexemes_of_no_matches script loc (evs : list (Event TokenID)) :
  Forall (eq (NoMatchEvent loc)) evs ->
  concat (map (lexeme script) evs) = [].
Proof.
  induction 1 as [|ev evs <- _ IH]; [reflexivity | exact IH].
Qed.

Lemma spans_not_empty script : forall (evs : list (Event TokenID)) pos p,
  spans pos evs p -> p <= length script ->
  Forall (fun ev => lexeme script ev <> []) evs.
Proof.
  induction evs as [|[loc id s e|loc] evs IH]; intros pos p; simpl.
  - constructor.
  - intros (-> & Hlt & Hrest) Hp.
    pose proof (spans_length _ _ _ Hrest) as Hlen.
    constructor; [|apply (IH _ _ Hrest Hp)].
    intros Hnil. simpl in Hnil. apply (f_equal (@length ascii)) in Hnil.
    rewrite range_length in Hnil by lia. simpl in Hnil. lia.
  - contradiction.
Qed.

Lemma example_sinks_tokens lx script : forall fuel st Tokens,
  sink (analyze_loop fuel lx script (example_sinks script) st Tokens) =
  Tokens ++
  flat_map (token_of script)
    (events (analyze_loop fuel lx script (example_sinks script) st Tokens)).
Proof.
  apply (analyze_loop_cases lx script (example_sinks script)
           (fun _ _ Tokens r =>
              sink r = Tokens ++ flat_map (token_of script) (events r))).
  - intros fuel st h _. simpl. now rewrite app_nil_r.
  - intros st h _. simpl. now rewrite app_nil_r.
  - intros fuel st h probes [loc id s e|loc] st' x h' _ _ Hsink;
      simpl in Hsink; [discriminate|].
    injection Hsink as _ <-. simpl. now rewrite app_nil_r.
  - intros fuel st h probes [loc id s e|loc] st' h' _ _ Hsink IH;
      simpl in Hsink; [|discriminate].
    injection Hsink as <-. simpl. rewrite IH, <- app_assoc. reflexivity.
Qed.

(** X7. With the sinks of the example, the tokens [MatchedTokenList] holds
    after a call of [analyze] are the ones it held before followed by one
    token per match event, in order, with the location and the identifier
    of the event and the text of its span; none of the new lexemes is
    empty, and concatenated they are the characters of the script before
    an offset [p]. *)
Theorem example_tokens_are_match_events lx script
    (Tokens : list (MatchedToken TokenID)) (fuel : nat) :
  let r := analyze fuel lx script (example_sinks script) Tokens in
  let new := flat_map (token_of script) (events r) in
  sink r = Tokens ++ new /\
  Forall (fun t => Lexeme t <> []) new /\
  exists p, p <= length script /\ concat (map (@Lexeme TokenID) new) = firstn p script.
Proof.
  cbv zeta. unfold analyze.
  split; [apply example_sinks_tokens|].
  destruct (analyze_loop_shaped lx script (example_sinks script) fuel initial
              Tokens (Nat.le_0_l _))
    as (ms & ns & p & Hev & Hsp & Hp & Hcat & Hns & _).
  rewrite Hev. split.
  - rewrite flat_map_app. apply Forall_app. split.
    + pose proof (spans_not_empty script _ _ _ Hsp Hp) as Hne.
      clear Hev Hsp Hcat. induction ms as [|[loc id s e|loc] ms IH]; simpl.
      * constructor.
      * inversion Hne as [|? ? Hhead Htail]; subst.
        constructor; [exact Hhead | apply (IH Htail)].
      * inversion Hne as [|? ? _ Htail]; subst. apply (IH Htail).
    + destruct Hns as [-> | (_ & _ & loc & _ & Hall)]; [constructor|].
      clear Hev. induction Hall as [|ev ns <- _ IH]; [constructor | exact IH].
  - exists p. split; [exact Hp|].
    rewrite lexemes_of_tokens, map_app, concat_app, Hcat.
    replace (concat (map (lexeme script) ns)) with (@nil ascii).
    + rewrite app_nil_r. unfold range. simpl. now rewrite Nat.sub_0_r.
    + destruct Hns as [-> | (_ & _ & loc & _ & Hall)]; [reflexivity|].
      symmetry. apply (lexemes_of_no_matches _ _ _ Hall).
Qed.

(** X8. With the sinks of the example a call of [analyze] that is allowed
    as many iterations as the script has characters ends in one of two
    ways.  It returns, and the lexemes of the tokens collected make up the
    script.  Or it throws the [SyntaxErrorException] of a location that
    describes an offset inside the script at which no rule matches, and the
    lexemes of the tokens collected make up the script before that
    offset. *)
Theorem example_run_ends lx script (fuel : nat) :
  length script <= fuel ->
  let r := analyze fuel lx script (@example_sinks TokenID script) [] in
  (completion r = Returns /\
   covers script 0 (events r) /\
   concat (map (@Lexeme TokenID) (sink r)) = script) \/
  (exists loc,
     completion r = Throws (mkSyntaxError loc) /\
     global loc < length script /\
     no_rule_matches lx script (global loc) /\
     locates script loc /\
     In (NoMatchEvent loc) (events r) /\
     concat (map (@Lexeme TokenID) (sink r)) = firstn (global loc) script).
Proof.
  intros Hfuel. cbv zeta.
  pose proof (throwing_error_sink_ends lx script (example_sinks script)) as Hend.
  specialize (Hend (fun loc h => ex_intro _ (mkSyntaxError loc)
                                   (ex_intro _ h eq_refl))
                   fuel initial []).
  pose proof (example_sinks_tokens lx script fuel initial []) as Htok.
  pose proof (events_locate lx script (example_sinks script) fuel []) as Hloc.
  destruct (analyze_loop_shaped lx script (example_sinks script) fuel initial
              [] (Nat.le_0_l _))
    as (ms & ns & p & Hev & Hsp & Hp & Hcat & Hns & _).
  unfold analyze in *. simpl app in Htok.
  destruct (completion (analyze_loop fuel lx script (example_sinks script)
                          initial [])) as [|x|] eqn:Hc.
  - left. split; [reflexivity|].
    destruct (returns_covers lx script (example_sinks script) fuel initial []
                (Nat.le_0_l _) Hc) as [Hcov Hall].
    split; [exact Hcov|]. rewrite Htok, lexemes_of_tokens. exact Hall.
  - right.
    destruct (throws_from_sink lx script (example_sinks script) fuel initial
                [] x Hc) as (evs & ev & h0 & h1 & Hlast & Hraise & _).
    destruct ev as [loc id s e|loc]; simpl in Hraise; [discriminate|].
    injection Hraise as <- _. exists loc.
    assert (Hin : In (NoMatchEvent loc)
                    (events (analyze_loop fuel lx script (example_sinks script)
                               initial [])))
      by (rewrite Hlast; apply in_or_app; right; left; reflexivity).
    assert (Hns' : p < length script /\ no_rule_matches lx script p /\
                   global loc = p /\ Forall (eq (NoMatchEvent loc)) ns).
    { rewrite Hev in Hin. apply in_app_or in Hin. destruct Hin as [Hin|Hin].
      - pose proof (spans_matches _ _ _ Hsp) as Hm. rewrite Forall_forall in Hm.
        specialize (Hm _ Hin). discriminate.
      - destruct Hns as [-> | (H1 & H2 & loc' & H3 & Hall)]; [contradiction|].
        rewrite Forall_forall in Hall. pose proof (Hall _ Hin) as Heq.
        injection Heq as ->. rewrite <- Forall_forall in Hall. auto. }
    destruct Hns' as (H1 & H2 & H3 & Hall). rewrite H3.
    split; [reflexivity|]. split; [exact H1|]. split; [exact H2|].
    split; [rewrite Forall_forall in Hloc; apply (Hloc _ Hin)|].
    split; [exact Hin|].
    rewrite Htok, lexemes_of_tokens, Hev, map_app, concat_app, Hcat.
    rewrite (lexemes_of_no_matches _ _ _ Hall), app_nil_r.
    unfold range. simpl. now rewrite Nat.sub_0_r.
  - elim Hend; [simpl; lia | reflexivity].
Qed.

End Further.

(** * Properties of [main] of [Example.cpp] *)

Lemma no_newline_zero (s : list ascii) :
  Forall (fun c => c <> newline) s -> newlines s = 0.
Proof.
  induction 1 as [|c s Hc _ IH]; [reflexivity|].
  rewrite newlines_cons, IH. apply Ascii.eqb_neq in Hc. now rewrite Hc.
Qed.

Lemma digits_no_newline (d : Decimal.uint) :
  Forall (fun c => c <> newline)
         (list_ascii_of_string (DecimalString.NilEmpty.string_of_uint d)).
Proof.
  induction d; simpl; constructor; try discriminate; assumption.
Qed.

Lemma print_size_t_no_newline (n : nat) : newlines (print_size_t n) = 0.
Proof. apply no_newline_zero, digits_no_newline. Qed.

Lemma print_lexeme_clean (s : list ascii) :
  Forall (fun c => c <> newline /\ c <> tab /\ c <> NUL) (print_lexeme s).
Proof.
  induction s as [|c s IH]; simpl; [constructor|].
  destruct (Ascii.eqb c NUL) eqn:Hnul; [constructor|].
  destruct (Ascii.eqb c newline) eqn:Hnl;
    [|destruct (Ascii.eqb c tab) eqn:Htab]; simpl.
  - repeat (constructor; [repeat split; discriminate|]). exact IH.
  - repeat (constructor; [repeat split; discriminate|]). exact IH.
  - apply Ascii.eqb_neq in Hnul, Hnl, Htab. constructor; [auto | exact IH].
Qed.

Lemma print_lexeme_no_newline (s : list ascii) : newlines (print_lexeme s) = 0.
Proof.
  apply no_newline_zero. eapply Forall_impl; [|apply print_lexeme_clean].
  now intros c [Hc _].
Qed.

(** X9. The loop of [main] that writes a lexeme writes no newline, no tab
    and no NUL, and at most two characters per character of the lexeme; a
    lexeme without these three characters is written as it is; and only
    the characters of the lexeme before its first NUL are written. *)
Theorem print_lexeme_escapes (s : list ascii) :
  Forall (fun c => c <> newline /\ c <> tab /\ c <> NUL) (print_lexeme s) /\
  length (print_lexeme s) <= 2 * length s /\
  (Forall (fun c => c <> newline /\ c <> tab /\ c <> NUL) s ->
   print_lexeme s = s) /\
  print_lexeme (c_str s) = print_lexeme s.
Proof.
  split; [apply print_lexeme_clean|]. split; [|split].
  - induction s as [|c s IH]; simpl; [lia|].
    destruct (Ascii.eqb c NUL); [simpl; lia|].
    destruct (Ascii.eqb c newline); [|destruct (Ascii.eqb c tab)];
      simpl; lia.
  - induction 1 as [|c s (Hnl & Htab & Hnul) _ IH]; [reflexivity|]. simpl.
    apply Ascii.eqb_neq in Hnl, Htab, Hnul. now rewrite Hnl, Htab, Hnul, IH.
  - induction s as [|c s IH]; [reflexivity|]. simpl.
    destruct (Ascii.eqb c NUL) eqn:Hnul; [reflexivity|].
    simpl. now rewrite Hnul, IH.
Qed.

(** X10. [TokenIDToString] returns a name for the value of every
    enumerator of [TOKEN_ID], a different name for each, and throws for
    every other value. *)
Theorem TokenIDToString_names :
  (forall id, exists name,
     TokenIDToString (TOKEN_ID_value id) = Some name /\
     newlines (list_ascii_of_string name) = 0) /\
  (forall a b,
     TokenIDToString (TOKEN_ID_value a) = TokenIDToString (TOKEN_ID_value b) ->
     a = b) /\
  (forall n, TokenIDToString n = None <-> 12 <= n).
Proof.
  split; [|split].
  - intros []; eexists; split; reflexivity.
  - intros [] []; simpl; intros Heq; try reflexivity; discriminate Heq.
  - intros n. do 12 (destruct n as [|n]; [split; [discriminate | lia]|]).
    split; [lia | reflexivity].
Qed.

Lemma print_token_line (t : MatchedToken TOKEN_ID) :
  exists line, print_token t = Some line /\ newlines line = 1.
Proof.
  unfold print_token.
  destruct (token_ID t); cbn [TOKEN_ID_value TokenIDToString];
    eexists; (split; [reflexivity|]);
    rewrite !newlines_app, !print_size_t_no_newline, print_lexeme_no_newline;
    reflexivity.
Qed.

Lemma print_tokens_some (Tokens : list (MatchedToken TOKEN_ID)) :
  exists out, print_tokens Tokens = Some out.
Proof.
  induction Tokens as [|t Tokens [rest IH]]; simpl; [now exists []|].
  destruct (print_token_line t) as (line & -> & _). rewrite IH. eauto.
Qed.

(** X11. The loop of [main] over the tokens writes one line per token:
    it never meets a token it cannot name, and what it writes has as many
    newline characters as there are tokens. *)
Theorem print_tokens_one_line_each (Tokens : list (MatchedToken TOKEN_ID)) :
  exists out, print_tokens Tokens = Some out /\ newlines out = length Tokens.
Proof.
  induction Tokens as [|t Tokens (rest & IH & Hn)]; simpl.
  - exists []. split; reflexivity.
  - destruct (print_token_line t) as (line & -> & Hline). rewrite IH.
    exists (line ++ rest). split; [reflexivity|].
    rewrite newlines_app, Hline, Hn. reflexivity.
Qed.

Lemma c_str_skipn : forall (s : list ascii) g,
  g <= length (c_str s) -> c_str (skipn g s) = skipn g (c_str s).
Proof.
  induction s as [|c s IH]; intros g Hg.
  - now destruct g.
  - simpl in Hg. destruct g as [|g]; [reflexivity|]. simpl.
    destruct (Ascii.eqb c NUL); simpl in *; [lia|].
    apply IH. lia.
Qed.

Lemma event_offsets_inside {E : Engine} {TokenID H X : Type}
    (lx : Lexer TokenID) script (sk : Sinks TokenID H X) fuel h :
  Forall (fun ev => global (event_location ev) < length script)
         (events (analyze fuel lx script sk h)).
Proof.
  unfold analyze.
  eapply Forall_impl;
    [|apply events_of_iterations; apply reachable_initial].
  intros ev (st & probes & st' & Hreach & Hlt & Hit).
  pose proof (reachable_tracks _ _ _ Hreach) as Htr.
  destruct (iteration_tracks _ _ _ _ _ _ Hlt Htr Hit) as (_ & -> & _).
  exact Hlt.
Qed.

(** X12. When [analyze] is allowed as many iterations as the text has
    characters, [main] ends in one of two ways, whatever the table and the
    text.  It lists the tokens collected, whose lexemes make up the text.
    Or it reports a syntax error with the line and the column of a
    location that describes an offset of the text, followed by the text
    from that offset on, which is not empty.  It meets no token it cannot
    name. *)
Theorem main_body_output {E : Engine} (lex : Lexer TOKEN_ID)
    (c_script : list ascii) (fuel : nat) :
  length (c_str c_script) <= fuel ->
  (exists Tokens out,
     main_body fuel lex c_script = Listed out /\
     print_tokens Tokens = Some out /\
     concat (map (@Lexeme TOKEN_ID) Tokens) = c_str c_script) \/
  (exists loc rest,
     main_body fuel lex c_script =
       SyntaxError (list_ascii_of_string "SYNTAX ERROR: Line "
                    ++ print_size_t (line_number loc)
                    ++ list_ascii_of_string ", col "
                    ++ print_size_t (within_line loc)
                    ++ list_ascii_of_string ": "
                    ++ rest) /\
     rest = skipn (global loc) (c_str c_script) /\
     rest <> [] /\
     locates (c_str c_script) loc).
Proof.
  intros Hfuel. unfold main_body. cbv zeta.
  set (script := c_str c_script) in *.
  pose proof (throwing_error_sink_ends lex script (example_sinks script)
                (fun loc h => ex_intro _ (mkSyntaxError loc)
                                (ex_intro _ h eq_refl))
                fuel initial []) as Hend.
  pose proof (example_sinks_tokens lex script fuel initial []) as Htok.
  pose proof (events_locate lex script (example_sinks script) fuel []) as Hloc.
  pose proof (event_offsets_inside lex script (example_sinks script) fuel [])
    as Hin.
  unfold analyze in *. simpl app in Htok.
  destruct (completion (analyze_loop fuel lex script (example_sinks script)
                          initial [])) as [|x|] eqn:Hc.
  - left.
    destruct (returns_covers lex script (example_sinks script) fuel initial []
                (Nat.le_0_l _) Hc) as [_ Hall].
    destruct (print_tokens_some
                (sink (analyze_loop fuel lex script (example_sinks script)
                         initial []))) as [out Hout].
    rewrite Hout. eexists _, out. split; [reflexivity|]. split; [exact Hout|].
    rewrite Htok, lexemes_of_tokens. exact Hall.
  - right.
    destruct (throws_from_sink lex script (example_sinks script) fuel initial
                [] x Hc) as (evs & ev & h0 & h1 & Hlast & Hraise & _).
    destruct ev as [loc id s e|loc]; simpl in Hraise; [discriminate|].
    injection Hraise as <- _.
    assert (Hev : In (NoMatchEvent loc)
                    (events (analyze_loop fuel lex script (example_sinks script)
                               initial [])))
      by (rewrite Hlast; apply in_or_app; right; left; reflexivity).
    rewrite Forall_forall in Hloc, Hin.
    specialize (Hloc _ Hev). specialize (Hin _ Hev). simpl in Hloc, Hin.
    exists loc, (skipn (global loc) script). cbn [error_Location].
    rewrite c_str_skipn by (fold script; lia).
    split; [reflexivity|]. split; [reflexivity|]. split; [|exact Hloc].
    intros Hnil. apply (f_equal (@length ascii)) in Hnil.
    rewrite length_skipn in Hnil. simpl in Hnil. lia.
  - elim Hend; [simpl; lia | reflexivity].
Qed.

(** [main] on the text of [Example.cpp], with the reference engine: every
    pattern compiles and the text is listed in fifty-one tokens. *)
Example main_on_c_script :
  define_all example_rules (empty_lexer TOKEN_ID) = Return example_lexer /\
  exists out,
    main_body (length c_script) example_lexer c_script = Listed out /\
    newlines out = 51.
Proof. split; [reflexivity|]. eexists. split; vm_compute; reflexivity. Qed.

(** ** The further theorems with hypotheses, at concrete inputs *)

(** X1 over the whole script of the location example. *)
Lemma SearchRegex_within_range_witness :
  let lx := location_arithmetic_lexer in
  let script := twelve_thirtyfour in
  let start := 0 in
  let end_ := 5 in
  (start < end_ /\ end_ <= length script) /\
  let m := fst (SearchRegex lx script start end_) in
  LexemeStart m = start /\
  start <= LexemeEnd m /\
  LexemeEnd m <= end_ /\
  Token m <= length (m_expressions lx) /\
  (Token m = length (m_expressions lx) <-> LexemeEnd m = start) /\
  (Token m < length (m_expressions lx) ->
   exists d results,
     nth_error (m_expressions lx) (Token m) = Some d /\
     regex_search (Expr d) (range script start end_) MatchRegex_flags
     = Some results /\
     range script start (LexemeEnd m) = str results).
Proof.
  intros lx script start end_.
  assert (H1 : start < end_) by (vm_compute; lia).
  assert (H2 : end_ <= length script) by (vm_compute; lia).
  split; [split; assumption|].
  exact (SearchRegex_within_range lx script start end_ H1 H2).
Defined.

(** X2 over the whole script of the location example. *)
Lemma CountLineNums_counts_witness :
  let script := twelve_thirtyfour in
  let a := 0 in
  let b := 5 in
  let lineLineBegin := 0 in
  (a <= b /\ b <= length script) /\
  fst (CountLineNums script a b lineLineBegin) = newlines (range script a b) /\
  (newlines (range script a b) = 0 ->
   snd (CountLineNums script a b lineLineBegin) = lineLineBegin) /\
  (0 < newlines (range script a b) ->
   exists pre post,
     range script a b = pre ++ newline :: post /\
     newlines post = 0 /\
     snd (CountLineNums script a b lineLineBegin) = a + length pre + 1).
Proof.
  intros script a b lineLineBegin.
  assert (H1 : a <= b) by (vm_compute; lia).
  assert (H2 : b <= length script) by (vm_compute; lia).
  split; [split; assumption|].
  exact (CountLineNums_counts script a b lineLineBegin H1 H2).
Defined.

(** X6 at the script [$] with the sinks of the example. *)
Lemma throwing_error_sink_terminates_witness :
  let lx := location_arithmetic_lexer in
  let script := dollar in
  let sk := @example_sinks TOKEN_ID dollar in
  let h := @nil (MatchedToken TOKEN_ID) in
  let fuel := 1 in
  ((forall loc h0, exists x h', onError sk loc h0 = Raise x h') /\
   length script <= fuel) /\
  (completion (analyze fuel lx script sk h) = Returns \/
   exists x, completion (analyze fuel lx script sk h) = Throws x).
Proof.
  intros lx script sk h fuel.
  assert (H1 : forall loc h0, exists x h', onError sk loc h0 = Raise x h')
    by (intros loc h0; exists (mkSyntaxError loc), h0; reflexivity).
  assert (H2 : length script <= fuel) by (vm_compute; lia).
  split; [split; assumption|].
  exact (throwing_error_sink_terminates lx script sk h fuel H1 H2).
Defined.

(** X8 at the script [$]. *)
Lemma example_run_ends_witness :
  let lx := location_arithmetic_lexer in
  let script := dollar in
  let fuel := 1 in
  length script <= fuel /\
  let r := analyze fuel lx script (@example_sinks TOKEN_ID script) [] in
  ((completion r = Returns /\
    covers script 0 (events r) /\
    concat (map (@Lexeme TOKEN_ID) (sink r)) = script) \/
   (exists loc,
      completion r = Throws (mkSyntaxError loc) /\
      global loc < length script /\
      no_rule_matches lx script (global loc) /\
      locates script loc /\
      In (NoMatchEvent loc) (events r) /\
      concat (map (@Lexeme TOKEN_ID) (sink r)) = firstn (global loc) script)).
Proof.
  intros lx script fuel.
  assert (H1 : length script <= fuel) by (vm_compute; lia).
  split; [exact H1|].
  exact (example_run_ends lx script fuel H1).
Defined.

(** X12 at the text of [Example.cpp]. *)
Lemma main_body_output_witness :
  let lex := example_lexer in
  let fuel := length c_script in
  length (c_str c_script) <= fuel /\
  ((exists Tokens out,
      main_body fuel lex c_script = Listed out /\
      print_tokens Tokens = Some out /\
      concat (map (@Lexeme TOKEN_ID) Tokens) = c_str c_script) \/
   (exists loc rest,
      main_body fuel lex c_script =
        SyntaxError (list_ascii_of_string "SYNTAX ERROR: Line "
                     ++ print_size_t (line_number loc)
                     ++ list_ascii_of_string ", col "
                     ++ print_size_t (within_line loc)
                     ++ list_ascii_of_string ": "
                     ++ rest) /\
      rest = skipn (global loc) (c_str c_script) /\
      rest <> [] /\
      locates (c_str c_script) loc)).
Proof.
  intros lex fuel.
  assert (H1 : length (c_str c_script) <= fuel) by (vm_compute; lia).
  split; [exact H1|].
  exact (main_body_output lex c_script fuel H1).
Defined.

(** X14 at the location example. *)
Lemma returns_only_if_tokenizes_witness :
  let lx := location_arithmetic_lexer in
  let script := twelve_thirtyfour in
  let sk := @example_sinks TOKEN_ID script in
  completion (analyze_loop 3 lx script sk initial []) = Returns /\
  tokenizes lx script (cursor initial).
Proof.
  intros lx script sk.
  assert (H1 : completion (analyze_loop 3 lx script sk initial []) = Returns)
    by reflexivity.
  split; [exact H1|].
  exact (returns_only_if_tokenizes lx script sk 3 initial [] H1).
Defined.
